(** * The bz2dec element: a streaming bzip2 decoder

    A shallow embedding of [gst_bz2dec_decompress_end],
    [gst_bz2dec_decompress_init] and [gst_bz2dec_chain].  The element keeps a
    [bz_stream] session, a [ready] flag and a 64-bit output offset; [chain]
    binds one input buffer to the session and drives [BZ2_bzDecompress] over
    freshly allocated output buffers of [buffer_size] bytes.

    libbz2 and the peer of the source pad are not part of the element: they
    are records of operations the element is parameterised by.  Unsigned C
    integers are [N] with the wrap-around written out; the return code of
    libbz2 is a C [int], a [Z]. *)

From Stdlib Require Import List NArith ZArith Lia Bool.
From Stdlib.Strings Require Import Byte.
Import ListNotations.

Local Open Scope N_scope.

(** ** Machine arithmetic *)

Definition wrap32 (n : N) : N := n mod 2 ^ 32.
Definition wrap64 (n : N) : N := n mod 2 ^ 64.

(** [a - b] on two [unsigned int]s. *)
Definition sub32 (a b : N) : N := wrap32 (a + 2 ^ 32 - wrap32 b).

(** ** libbz2 return codes (bzlib.h) *)

Definition BZ_OK : Z := 0%Z.
Definition BZ_STREAM_END : Z := 4%Z.
Definition BZ_SEQUENCE_ERROR : Z := (-1)%Z.
Definition BZ_PARAM_ERROR : Z := (-2)%Z.
Definition BZ_DATA_ERROR : Z := (-4)%Z.
Definition BZ_DATA_ERROR_MAGIC : Z := (-5)%Z.

(** ** GstFlowReturn *)

Inductive GstFlowReturn : Type :=
| GST_FLOW_RESEND
| GST_FLOW_OK
| GST_FLOW_NOT_LINKED
| GST_FLOW_WRONG_STATE
| GST_FLOW_UNEXPECTED
| GST_FLOW_NOT_NEGOTIATED
| GST_FLOW_ERROR
| GST_FLOW_NOT_SUPPORTED.

Definition flow_is_ok (fr : GstFlowReturn) : bool :=
  match fr with GST_FLOW_OK => true | _ => false end.

(** ** Buffers

    A [GstBuffer] as the element sees it: the payload, [GST_BUFFER_SIZE] and
    [GST_BUFFER_OFFSET]. *)

Record GstBuffer : Type := mkBuffer {
  GST_BUFFER_DATA : list byte;
  GST_BUFFER_SIZE : N;
  GST_BUFFER_OFFSET : N
}.

Definition GST_BUFFER_OFFSET_NONE : N := 2 ^ 64 - 1.

(** An input buffer holding [bytes]. *)
Definition input_buffer (bytes : list byte) : GstBuffer :=
  mkBuffer bytes (N.of_nat (length bytes)) GST_BUFFER_OFFSET_NONE.

(** ** The bz_stream session

    [next_in] is the memory at the input cursor and [avail_in] the number of
    bytes readable there; the bytes stored through [next_out] are returned by
    the decompression step.  [state] is the private decoder state, [None] for
    the null pointer. *)

Record bz_stream (S : Type) : Type := mkStream {
  next_in : list byte;
  avail_in : N;
  total_in_lo32 : N;
  total_in_hi32 : N;
  avail_out : N;
  total_out_lo32 : N;
  total_out_hi32 : N;
  state : option S
}.

Arguments mkStream {S}.
Arguments next_in {S}.
Arguments avail_in {S}.
Arguments total_in_lo32 {S}.
Arguments total_in_hi32 {S}.
Arguments avail_out {S}.
Arguments total_out_lo32 {S}.
Arguments total_out_hi32 {S}.
Arguments state {S}.

(** [memset (&b->stream, 0, sizeof (b->stream))]. *)
Definition zero_stream {S : Type} : bz_stream S :=
  mkStream [] 0 0 0 0 0 0 None.

Definition set_input {S} (s : bz_stream S) (p : list byte) (n : N) : bz_stream S :=
  mkStream p n (total_in_lo32 s) (total_in_hi32 s)
           (avail_out s) (total_out_lo32 s) (total_out_hi32 s) (state s).

Definition set_avail_out {S} (s : bz_stream S) (n : N) : bz_stream S :=
  mkStream (next_in s) (avail_in s) (total_in_lo32 s) (total_in_hi32 s)
           n (total_out_lo32 s) (total_out_hi32 s) (state s).

(** ** The collaborators *)

(** libbz2: the three entry points the element calls.  [BZ2_bzDecompress]
    returns its code, the updated session and the bytes it stored. *)
Record bzlib : Type := mkBzlib {
  bz_state : Type;
  BZ2_bzDecompressInit : bz_stream bz_state -> Z * bz_stream bz_state;
  BZ2_bzDecompress : bz_stream bz_state -> Z * bz_stream bz_state * list byte;
  BZ2_bzDecompressEnd : bz_stream bz_state -> Z * bz_stream bz_state
}.

(** The peer of the source pad.  [gst_pad_alloc_buffer] is asked for a buffer
    at an offset and of a size; when it answers [GST_FLOW_OK] the buffer has
    the requested size.  [gst_pad_push] hands a buffer over. *)
Record pad_peer : Type := mkPeer {
  peer_state : Type;
  gst_pad_alloc_buffer : peer_state -> N -> N -> GstFlowReturn * peer_state;
  gst_pad_push : peer_state -> GstBuffer -> GstFlowReturn * peer_state
}.

(** ** What a run of the element does, as seen from outside *)

Inductive element_error : Type :=
| Decompressor_not_ready
| Failed_to_start_decompression
| Failed_to_decompress_data (code : Z).

Inductive event : Type :=
| EvError (e : element_error)       (* GST_ELEMENT_ERROR *)
| EvDecompress (r : Z)              (* BZ2_bzDecompress returned r *)
| EvPush (out : GstBuffer) (fr : GstFlowReturn).  (* gst_pad_push returned fr *)

(** The buffers given to [gst_pad_push], in order. *)
Fixpoint handed (l : list event) : list GstBuffer :=
  match l with
  | [] => []
  | EvPush out _ :: l' => out :: handed l'
  | _ :: l' => handed l'
  end.

(** The return codes of the decompression steps, in order. *)
Fixpoint codes (l : list event) : list Z :=
  match l with
  | [] => []
  | EvDecompress r :: l' => r :: codes l'
  | _ :: l' => codes l'
  end.

(** The element errors posted, in order. *)
Fixpoint posted (l : list event) : list element_error :=
  match l with
  | [] => []
  | EvError e :: l' => e :: posted l'
  | _ :: l' => posted l'
  end.

(** The answers of [gst_pad_push], in order. *)
Fixpoint answers (l : list event) : list GstFlowReturn :=
  match l with
  | [] => []
  | EvPush _ fr :: l' => fr :: answers l'
  | _ :: l' => answers l'
  end.

Definition payload (l : list event) : list byte :=
  concat (map GST_BUFFER_DATA (handed l)).

(** ** The element *)

Definition DEFAULT_BUFFER_SIZE : N := 1024.

Section Element.

Variable lib : bzlib.
Variable peer : pad_peer.

Record GstBz2dec : Type := mkBz2dec {
  buffer_size : N;
  ready : bool;
  stream : bz_stream (bz_state lib);
  offset : N
}.

Definition with_stream (b : GstBz2dec) (s : bz_stream (bz_state lib)) : GstBz2dec :=
  mkBz2dec (buffer_size b) (ready b) s (offset b).

Definition with_offset (b : GstBz2dec) (o : N) : GstBz2dec :=
  mkBz2dec (buffer_size b) (ready b) (stream b) o.

Definition with_ready (b : GstBz2dec) (r : bool) : GstBz2dec :=
  mkBz2dec (buffer_size b) r (stream b) (offset b).

Definition gst_bz2dec_decompress_end (b : GstBz2dec) : GstBz2dec :=
  if ready b then
    let '(_, s) := BZ2_bzDecompressEnd lib (stream b) in
    let s := @zero_stream (bz_state lib) in
    with_ready (with_stream b s) false
  else b.

Definition gst_bz2dec_decompress_init (b : GstBz2dec) : GstBz2dec * list event :=
  let b := gst_bz2dec_decompress_end b in
  let b := with_offset b 0 in
  let '(rc, s) := BZ2_bzDecompressInit lib (stream b) in
  let b := with_stream b s in
  if (rc =? BZ_OK)%Z then (with_ready b true, [])
  else (with_ready b false, [EvError Failed_to_start_decompression]).

(** The element after [gst_bz2dec_decompress_init] on a ready element of the
    same [buffer_size]. *)
Definition restarted (size : N) : GstBz2dec :=
  mkBz2dec size
    (fst (BZ2_bzDecompressInit lib zero_stream) =? BZ_OK)%Z
    (snd (BZ2_bzDecompressInit lib zero_stream)) 0.

(** What one call of [gst_bz2dec_chain] leaves behind.  [flow] is the value
    returned, [None] when the loop was cut off by the iteration budget. *)
Record outcome : Type := mkOutcome {
  flow : option GstFlowReturn;
  element : GstBz2dec;
  downstream : peer_state peer;
  log : list event
}.

Definition before (evs : list event) (o : outcome) : outcome :=
  mkOutcome (flow o) (element o) (downstream o) (evs ++ log o).

(** One pass through the body of the [while] loop: the function returns
    ([Leave]), also for [break], or goes round again ([Again]) with the code
    of the step and what happened. *)
Inductive iteration : Type :=
| Leave (o : outcome)
| Again (b : GstBz2dec) (d : peer_state peer) (r : Z) (evs : list event).

Definition chain_body (b : GstBz2dec) (d : peer_state peer) : iteration :=
  let '(fr, d) := gst_pad_alloc_buffer peer d (offset b) (buffer_size b) in
  if negb (flow_is_ok fr) then
    let '(b, evs) := gst_bz2dec_decompress_init b in
    Leave (mkOutcome (Some fr) b d evs)
  else
    let out := mkBuffer [] (buffer_size b) (offset b) in
    let '(r, s, written) :=
      BZ2_bzDecompress lib (set_avail_out (stream b) (GST_BUFFER_SIZE out)) in
    let b := with_stream b s in
    if negb (r =? BZ_OK)%Z && negb (r =? BZ_STREAM_END)%Z then
      let '(b, evs) := gst_bz2dec_decompress_init b in
      Leave (mkOutcome (Some GST_FLOW_ERROR) b d
               (EvDecompress r :: EvError (Failed_to_decompress_data r) :: evs))
    else if GST_BUFFER_SIZE out <=? avail_out (stream b) then
      Leave (mkOutcome (Some GST_FLOW_OK) b d [EvDecompress r])
    else
      let size := sub32 (GST_BUFFER_SIZE out) (avail_out (stream b)) in
      let off := sub32 (total_out_lo32 (stream b)) size in
      let out := mkBuffer written size off in
      let n := GST_BUFFER_SIZE out in
      let '(fr, d) := gst_pad_push peer d out in
      if negb (flow_is_ok fr) then
        Leave (mkOutcome (Some fr) b d [EvDecompress r; EvPush out fr])
      else
        Again (with_offset b (wrap64 (offset b + n))) d r
              [EvDecompress r; EvPush out fr].

(** The [while (r != BZ_STREAM_END)] loop; [r] is the code of the last step
    and [fuel] bounds the number of passes. *)
Fixpoint chain_loop (fuel : nat) (b : GstBz2dec) (d : peer_state peer) (r : Z)
  : outcome :=
  if (r =? BZ_STREAM_END)%Z then mkOutcome (Some GST_FLOW_OK) b d []
  else
    match fuel with
    | O => mkOutcome None b d []
    | S fuel' =>
      match chain_body b d with
      | Leave o => o
      | Again b' d' r' evs => before evs (chain_loop fuel' b' d' r')
      end
    end.

Definition gst_bz2dec_chain (fuel : nat) (b : GstBz2dec) (d : peer_state peer)
  (inb : GstBuffer) : outcome :=
  if negb (ready b) then
    mkOutcome (Some GST_FLOW_ERROR) b d [EvError Decompressor_not_ready]
  else
    let s := set_input (stream b) (GST_BUFFER_DATA inb) (GST_BUFFER_SIZE inb) in
    chain_loop fuel (with_stream b s) d BZ_OK.

(** [gst_bz2dec_init] on a zero-filled instance. *)
Definition gst_bz2dec_init : GstBz2dec * list event :=
  gst_bz2dec_decompress_init (mkBz2dec DEFAULT_BUFFER_SIZE false zero_stream 0).

Definition gst_bz2dec_set_property (b : GstBz2dec) (value : N) : GstBz2dec :=
  mkBz2dec value (ready b) (stream b) (offset b).

(** Feeding input buffers one after the other, whatever each call returns. *)
Fixpoint feed (fuel : nat) (b : GstBz2dec) (d : peer_state peer)
  (ins : list GstBuffer) : list outcome :=
  match ins with
  | [] => []
  | inb :: ins' =>
    let o := gst_bz2dec_chain fuel b d inb in
    o :: feed fuel (element o) (downstream o) ins'
  end.

End Element.

Arguments buffer_size {lib}.
Arguments ready {lib}.
Arguments stream {lib}.
Arguments offset {lib}.
Arguments mkBz2dec {lib}.
Arguments flow {lib peer}.
Arguments element {lib peer}.
Arguments downstream {lib peer}.
Arguments log {lib peer}.
Arguments mkOutcome {lib peer}.
Arguments Leave {lib peer}.
Arguments Again {lib peer}.

(** Whether a return code of [BZ2_bzDecompress] sends [chain] to its error
    path. *)
Definition is_error (r : Z) : bool :=
  negb (r =? BZ_OK)%Z && negb (r =? BZ_STREAM_END)%Z.

(** ** Contracts of the collaborators *)

(** libbz2 counts the bytes it stores: a step never gives capacity back and
    adds what it stored to [total_out_lo32], modulo 2^32. *)
Definition counts_output (lib : bzlib) : Prop :=
  forall s r s' w,
    BZ2_bzDecompress lib s = (r, s', w) ->
    total_out_lo32 s < 2 ^ 32 ->
    avail_out s' <= avail_out s /\
    total_out_lo32 s' = wrap32 (total_out_lo32 s + (avail_out s - avail_out s')).

(** Every step consumes input or stores output. *)
Definition makes_progress (lib : bzlib) : Prop :=
  forall s r s' w,
    BZ2_bzDecompress lib s = (r, s', w) ->
    is_error r = false ->
    0 < avail_out s ->
    avail_in s' < avail_in s \/ avail_out s' < avail_out s.

(** The output a session can still produce is finite: [mu] bounds it, and
    goes down with every step that stores a byte. *)
Definition output_bounded_by (lib : bzlib)
  (mu : bz_stream (bz_state lib) -> nat) : Prop :=
  forall s c r s' w,
    BZ2_bzDecompress lib (set_avail_out s c) = (r, s', w) ->
    avail_out s' < c ->
    (mu s' < mu s)%nat.

(** A peer that always provides a buffer and always takes it. *)
Definition accepts (peer : pad_peer) : Prop :=
  (forall d off size, fst (gst_pad_alloc_buffer peer d off size) = GST_FLOW_OK) /\
  (forall d out, fst (gst_pad_push peer d out) = GST_FLOW_OK).

(** The offsets of a run of buffers that starts at byte [T] of the
    decompressed stream, as the element stamps them. *)
Fixpoint stamped_from (T : N) (l : list GstBuffer) : Prop :=
  match l with
  | [] => True
  | c :: l' =>
    GST_BUFFER_OFFSET c = T mod 2 ^ 32 /\
    stamped_from (T + GST_BUFFER_SIZE c) l'
  end.

(** Each buffer, given by its offset and its size, starts where the one
    before it stopped, and further on. *)
Fixpoint contiguous (l : list (N * N)) : Prop :=
  match l with
  | (o1, n1) :: (((o2, _) :: _) as l') =>
    o2 = o1 + n1 /\ o1 < o2 /\ contiguous l'
  | _ => True
  end.

Definition total_size (l : list GstBuffer) : N :=
  fold_right (fun c acc => GST_BUFFER_SIZE c + acc) 0 l.

(** ** A model of libbz2's streaming interface

    A decoder is a machine that, in each of its states, wants one more input
    byte, has one more output byte, has reached the end of the stream or has
    found the data corrupt.  [BZ2_bzDecompress] drives it until it wants a
    byte and [avail_in] is 0, has a byte and [avail_out] is 0, ends or
    fails. *)

Inductive action (S : Type) : Type :=
| Need (k : byte -> S)
| Emit (x : byte) (s : S)
| Finish
| Fail.

Arguments Need {S}.
Arguments Emit {S}.
Arguments Finish {S}.
Arguments Fail {S}.

Record machine : Type := mkMachine {
  mstate : Type;
  start : mstate;
  next : mstate -> action mstate
}.

(** The private state of a session: decoding, or idle once the stream has
    ended. *)
Inductive run_state (M : machine) : Type :=
| Running (s : mstate M)
| Idle.

Arguments Running {M}.
Arguments Idle {M}.

(** The 64-bit byte counters kept as two 32-bit halves. *)
Definition count_lo (lo hi k : N) : N := wrap32 (lo + k).
Definition count_hi (lo hi k : N) : N := wrap32 (hi + (lo + k) / 2 ^ 32).

Section Machine.

Variable M : machine.

(** One call: input [inp], room for [cap] bytes.  The result is the return
    code, the state left, the input not read and the bytes stored. *)
Fixpoint bz_run (inp : list byte)
  : nat -> mstate M -> Z * run_state M * list byte * list byte :=
  fix drain (cap : nat) (s : mstate M) {struct cap} :=
    match next M s with
    | Need k =>
      match inp with
      | [] => (BZ_OK, Running s, [], [])
      | x :: inp' => bz_run inp' cap (k x)
      end
    | Emit x s' =>
      match cap with
      | O => (BZ_OK, Running s, inp, [])
      | S cap' =>
        let '(r, q, rest, out) := drain cap' s' in (r, q, rest, x :: out)
      end
    | Finish => (BZ_STREAM_END, Idle, inp, [])
    | Fail => (BZ_DATA_ERROR, Running s, inp, [])
    end.

Definition machine_decompress (strm : bz_stream (run_state M))
  : Z * bz_stream (run_state M) * list byte :=
  match state strm with
  | None => (BZ_PARAM_ERROR, strm, [])
  | Some Idle => (BZ_SEQUENCE_ERROR, strm, [])
  | Some (Running s) =>
    let inp := firstn (N.to_nat (avail_in strm)) (next_in strm) in
    let '(r, q, rest, out) := bz_run inp (N.to_nat (avail_out strm)) s in
    let k := (length inp - length rest)%nat in
    let m := N.of_nat (length out) in
    (r,
     mkStream (skipn k (next_in strm)) (avail_in strm - N.of_nat k)
       (count_lo (total_in_lo32 strm) (total_in_hi32 strm) (N.of_nat k))
       (count_hi (total_in_lo32 strm) (total_in_hi32 strm) (N.of_nat k))
       (avail_out strm - m)
       (count_lo (total_out_lo32 strm) (total_out_hi32 strm) m)
       (count_hi (total_out_lo32 strm) (total_out_hi32 strm) m)
       (Some q),
     out)
  end.

Definition machine_init (strm : bz_stream (run_state M))
  : Z * bz_stream (run_state M) :=
  (BZ_OK,
   mkStream (next_in strm) (avail_in strm) 0 0 (avail_out strm) 0 0
     (Some (Running (start M)))).

Definition machine_end (strm : bz_stream (run_state M))
  : Z * bz_stream (run_state M) :=
  (BZ_OK,
   mkStream (next_in strm) (avail_in strm)
     (total_in_lo32 strm) (total_in_hi32 strm)
     (avail_out strm) (total_out_lo32 strm) (total_out_hi32 strm) None).

Definition machine_lib : bzlib :=
  mkBzlib (run_state M) machine_init machine_decompress machine_end.

(** How the machine stops when it is given all the room it wants. *)
Inductive halt : Type :=
| Starved    (* wants input and there is none *)
| Ended      (* end of stream *)
| Broken.    (* corrupt data *)

(** [runs s inp out q rest h]: from [s], on input [inp], the machine stores
    [out] and stops in [q] with [rest] unread, for the reason [h]. *)
Inductive runs
  : mstate M -> list byte -> list byte -> run_state M -> list byte -> halt -> Prop :=
| runs_starved s k :
    next M s = Need k ->
    runs s [] [] (Running s) [] Starved
| runs_read s k x inp out q rest h :
    next M s = Need k ->
    runs (k x) inp out q rest h ->
    runs s (x :: inp) out q rest h
| runs_emit s x s' inp out q rest h :
    next M s = Emit x s' ->
    runs s' inp out q rest h ->
    runs s inp (x :: out) q rest h
| runs_finish s inp :
    next M s = Finish ->
    runs s inp [] Idle inp Ended
| runs_fail s inp :
    next M s = Fail ->
    runs s inp [] (Running s) inp Broken.

(** The code [BZ2_bzDecompress] returns when the machine stops. *)
Definition code_of (h : halt) : Z :=
  match h with
  | Starved => BZ_OK
  | Ended => BZ_STREAM_END
  | Broken => BZ_DATA_ERROR
  end.

(** [bytes] is a complete stream that decompresses to [out]: a fresh session
    reads all of it and reaches the end of the stream. *)
Definition decompresses_to (bytes out : list byte) : Prop :=
  runs (start M) bytes out Idle [] Ended.

(** A fresh session reads before it stores anything, as a decoder of a
    format with a header does. *)
Definition reads_first : Prop := exists k, next M (start M) = Need k.

End Machine.

Arguments runs {M}.

(** ** Three decoders and two peers to run the element on *)

(** A run-length format: the byte "Z", then pairs of a count and a value; a
    count of 0 ends the stream and a count of 255 is not allowed. *)
Inductive rle_state : Type :=
| RMagic
| RCount
| RValue (n : nat)
| RRun (n : nat) (x : byte)
| RDone
| RBad.

Definition rle_count (x : byte) : rle_state :=
  match Byte.to_N x with
  | 0 => RDone
  | 255 => RBad
  | n => RValue (N.to_nat n)
  end.

Definition rle_next (s : rle_state) : action rle_state :=
  match s with
  | RMagic => Need (fun x => if Byte.eqb x "Z"%byte then RCount else RBad)
  | RCount => Need rle_count
  | RValue n => Need (fun x => RRun n x)
  | RRun (S n) x => Emit x (RRun n x)
  | RRun O _ => Need rle_count
  | RDone => Finish
  | RBad => Fail
  end.

Definition rle : machine := mkMachine rle_state RMagic rle_next.

(** The number of bytes the run-length decoder still stores from [s] on the
    input [inp]. *)
Fixpoint rle_todo (inp : list byte) (s : rle_state) : nat :=
  match s with
  | RMagic =>
    match inp with
    | [] => O
    | x :: inp' => if Byte.eqb x "Z"%byte then rle_todo inp' RCount else O
    end
  | RCount =>
    match inp with
    | [] => O
    | x :: inp' => rle_todo inp' (rle_count x)
    end
  | RValue n =>
    match inp with
    | [] => O
    | x :: inp' => rle_todo inp' (RRun n x)
    end
  | RRun n _ =>
    n + match inp with
        | [] => O
        | x :: inp' => rle_todo inp' (rle_count x)
        end
  | RDone => O
  | RBad => O
  end.

(** The same, for the state a call leaves. *)
Definition rle_left (q : run_state rle) (rest : list byte) : nat :=
  match q with
  | Running s => rle_todo rest s
  | Idle => O
  end.

Definition rle_mu (strm : bz_stream (run_state rle)) : nat :=
  match state strm with
  | Some (Running s) =>
    rle_todo (firstn (N.to_nat (avail_in strm)) (next_in strm)) s
  | _ => O
  end.

(** Twenty "a" and twenty "b", compressed. *)
Definition forty_compressed : list byte := ["Z"; x14; "a"; x14; "b"; x00]%byte.
Definition forty : list byte := repeat "a"%byte 20 ++ repeat "b"%byte 20.

(** Twenty "a", then a count that is not allowed. *)
Definition corrupted : list byte := ["Z"; x14; "a"; xff; "b"; x00]%byte.

(** A decoder that never reads and always has another zero byte. *)
Definition spin : machine :=
  mkMachine unit tt (fun _ => Emit x00 tt).

(** Runs of zero bytes, decoded a run at a time: an input byte [x] other than
    0 stands for [2 ^ x] zero bytes, the byte 0 ends the stream. *)
Inductive zrun_state : Type :=
| ZPending (n : N)
| ZIdle.

Fixpoint zrun_step (inp : list byte) (pending cap : N)
  : Z * zrun_state * list byte * N :=
  let k := N.min pending cap in
  if k <? pending then (BZ_OK, ZPending (pending - k), inp, k)
  else
    match inp with
    | [] => (BZ_OK, ZPending 0, [], k)
    | x :: inp' =>
      if Byte.to_N x =? 0 then (BZ_STREAM_END, ZIdle, inp', k)
      else
        let '(r, q, rest, m) := zrun_step inp' (2 ^ Byte.to_N x) (cap - k) in
        (r, q, rest, k + m)
    end.

Definition zrun_decompress (strm : bz_stream zrun_state)
  : Z * bz_stream zrun_state * list byte :=
  match state strm with
  | None => (BZ_PARAM_ERROR, strm, [])
  | Some ZIdle => (BZ_SEQUENCE_ERROR, strm, [])
  | Some (ZPending p) =>
    let inp := firstn (N.to_nat (avail_in strm)) (next_in strm) in
    let '(r, q, rest, m) := zrun_step inp p (avail_out strm) in
    let k := (length inp - length rest)%nat in
    (r,
     mkStream (skipn k (next_in strm)) (avail_in strm - N.of_nat k)
       (count_lo (total_in_lo32 strm) (total_in_hi32 strm) (N.of_nat k))
       (count_hi (total_in_lo32 strm) (total_in_hi32 strm) (N.of_nat k))
       (avail_out strm - m)
       (count_lo (total_out_lo32 strm) (total_out_hi32 strm) m)
       (count_hi (total_out_lo32 strm) (total_out_hi32 strm) m)
       (Some q),
     repeat x00 (N.to_nat m))
  end.

Definition zrun_lib : bzlib :=
  mkBzlib zrun_state
    (fun strm =>
       (BZ_OK,
        mkStream (next_in strm) (avail_in strm) 0 0 (avail_out strm) 0 0
          (Some (ZPending 0))))
    zrun_decompress
    (fun strm =>
       (BZ_OK,
        mkStream (next_in strm) (avail_in strm)
          (total_in_lo32 strm) (total_in_hi32 strm)
          (avail_out strm) (total_out_lo32 strm) (total_out_hi32 strm) None)).

(** A peer that takes everything; its state is the number of buffers taken. *)
Definition sink : pad_peer :=
  mkPeer nat
    (fun d _ _ => (GST_FLOW_OK, d))
    (fun d _ => (GST_FLOW_OK, S d)).

(** A peer that takes [d] more buffers and then is flushing. *)
Definition flushing_after : pad_peer :=
  mkPeer nat
    (fun d _ _ => (GST_FLOW_OK, d))
    (fun d _ =>
       match d with
       | O => (GST_FLOW_WRONG_STATE, O)
       | S d' => (GST_FLOW_OK, d')
       end).

(** A peer that has [d] more buffers to give and then none. *)
Definition dry_after : pad_peer :=
  mkPeer nat
    (fun d _ _ =>
       match d with
       | O => (GST_FLOW_NOT_LINKED, O)
       | S d' => (GST_FLOW_OK, d')
       end)
    (fun d _ => (GST_FLOW_OK, d)).

(** The element as [gst_bz2dec_init] leaves it, with [buffer_size] set. *)
Definition new_element (lib : bzlib) (size : N) : GstBz2dec lib :=
  gst_bz2dec_set_property lib (fst (gst_bz2dec_init lib)) size.

Definition offsets_and_sizes (l : list GstBuffer) : list (N * N) :=
  map (fun c => (GST_BUFFER_OFFSET c, GST_BUFFER_SIZE c)) l.

(** A buffer cut down from [cap] bytes by the room [left] in it. *)
Definition trimmed (cap : N) (c : GstBuffer) : Prop :=
  exists left,
    left < cap /\ GST_BUFFER_SIZE c = sub32 cap left /\ GST_BUFFER_SIZE c <= cap.

(** The decompression steps libbz2 runs one after the other from the session
    [s] when each of them is offered [cap] bytes of room, as the passes of
    the loop of [gst_bz2dec_chain] offer them: of each step the code it
    returned, the session it left and the bytes it stored. *)
Fixpoint steps (lib : bzlib) (cap : N) (n : nat) (s : bz_stream (bz_state lib))
  : list (Z * bz_stream (bz_state lib) * list byte) :=
  match n with
  | O => []
  | S n' =>
    let t := BZ2_bzDecompress lib (set_avail_out s cap) in
    t :: steps lib cap n' (snd (fst t))
  end.

(** [c] is what the step [t] stored in a buffer of [cap] bytes: its size is
    [cap] less the [avail_out] the step left, computed in 32 bits. *)
Definition cut_to (lib : bzlib) (cap : N) (c : GstBuffer)
  (t : Z * bz_stream (bz_state lib) * list byte) : Prop :=
  avail_out (snd (fst t)) < cap /\
  GST_BUFFER_SIZE c = sub32 cap (avail_out (snd (fst t))) /\
  (cap < 2 ^ 32 -> GST_BUFFER_SIZE c + avail_out (snd (fst t)) = cap) /\
  GST_BUFFER_DATA c = snd t.

(** [l] cut into pieces of [cap] bytes, the last one possibly shorter; [n]
    bounds the number of pieces. *)
Fixpoint pieces (n cap : nat) (l : list byte) : list (list byte) :=
  match n with
  | O => []
  | S n' =>
    match l with
    | [] => []
    | _ => firstn cap l :: pieces n' cap (skipn cap l)
    end
  end.

(** A session bound to the input [inp], decoding from [s]. *)
Definition bound_to {M : machine} (strm : bz_stream (run_state M))
  (s : mstate M) (inp : list byte) : Prop :=
  state strm = Some (Running s) /\
  next_in strm = inp /\
  avail_in strm = N.of_nat (length inp).

(** All the bytes pushed while feeding a list of input buffers. *)
Definition fed_payload {lib peer} (os : list (outcome lib peer)) : list byte :=
  concat (map (fun o => payload (log o)) os).

(** What a call leaves when the machine, given all the room it wants, would
    store [out] and stop in [q] for the reason [h]. *)
Definition decoded {M : machine} {peer : pad_peer}
  (b : GstBz2dec (machine_lib M)) (out : list byte) (q : run_state M)
  (h : halt) (o : outcome (machine_lib M) peer) : Prop :=
  flow o = Some GST_FLOW_OK /\
  map GST_BUFFER_DATA (handed (log o))
  = pieces (length out) (N.to_nat (buffer_size b)) out /\
  Forall (fun c => GST_BUFFER_SIZE c = N.of_nat (length (GST_BUFFER_DATA c)))
    (handed (log o)) /\
  (exists l, codes (log o) = l ++ [code_of h]) /\
  buffer_size (element o) = buffer_size b /\
  ready (element o) = ready b /\
  state (stream (element o)) = Some q.


(** ** The buffer-size property *)

Definition PROP_0 : N := 0.
Definition PROP_BUFFER_SIZE : N := 1.

(** [gst_bz2dec_get_property] and [gst_bz2dec_set_property] with their
    property id.  The [GValue] holds a [guint]; the second component tells
    whether [G_OBJECT_WARN_INVALID_PROPERTY_ID] was reached. *)
Module Props.

Definition gst_bz2dec_get_property {lib : bzlib} (b : GstBz2dec lib)
  (prop_id : N) (value : N) : N * bool :=
  if prop_id =? PROP_BUFFER_SIZE then (buffer_size b, false)
  else (value, true).

Definition gst_bz2dec_set_property {lib : bzlib} (b : GstBz2dec lib)
  (prop_id : N) (value : N) : GstBz2dec lib * bool :=
  if prop_id =? PROP_BUFFER_SIZE
  then (mkBz2dec value (ready b) (stream b) (offset b), false)
  else (b, true).

End Props.

(** * The DCCP socket helpers (gst/dccp/gstdccp.c)

    The system calls are operations of a kernel the helpers are
    parameterised by; each takes the state of the world and returns what the
    call returns, what it stored through its pointer arguments, and the
    world after it.  C [int]s are [Z]; [size_t] is [size_bits] wide. *)

Local Open Scope Z_scope.

Definition EAGAIN : Z := 11.

(** The element errors of the helpers, by their GStreamer code. *)
Inductive resource_error : Type :=
| RESOURCE_READ
| RESOURCE_SETTINGS.

Record kernel : Type := mkKernel {
  world : Type;
  (** [select (socket + 1, {socket}, NULL, NULL, 0)] *)
  sys_select : world -> Z -> Z * world;
  (** [ioctl (socket, FIONREAD, &readsize)]: the return value and [readsize] *)
  sys_fionread : world -> Z -> Z * Z * world;
  (** [read (socket, data, count)]: the return value and the buffer after it *)
  sys_read : world -> Z -> Z -> Z * list byte * world;
  (** [write (socket, bytes, count)] on the [count] bytes at the pointer: the
      return value and [errno] *)
  sys_write : world -> Z -> list byte -> Z * Z * world;
  (** [getsockopt (sock_fd, SOL_DCCP, DCCP_SOCKOPT_AVAILABLE_CCIDS, &ccids, &len)]:
      the return value and the four bytes of [ccids] after the call *)
  sys_available_ccids : world -> Z -> Z * (byte * byte * byte * byte) * world;
  (** [setsockopt (sock_fd, SOL_DCCP, DCCP_SOCKOPT_CCID, &ccid, 1)] *)
  sys_set_ccid : world -> Z -> byte -> Z * world;
  (** [getsockopt (sock, SOL_DCCP, DCCP_SOCKOPT_GET_CUR_MPS, &size, &sizelen)] *)
  sys_cur_mps : world -> Z -> Z * Z * world
}.

(** A [gint] made of a wider value. *)
Definition to_gint (x : Z) : Z := (x + 2 ^ 31) mod 2 ^ 32 - 2 ^ 31.

(** One [write]: the bytes offered and the value returned. *)
Definition write_log : Type := list (list byte * Z).

(** The bytes the socket took. *)
Definition taken (l : write_log) : list byte :=
  concat (map (fun e => firstn (Z.to_nat (snd e)) (fst e)) l).

Section Dccp.

Variable K : kernel.
Variable size_bits : Z.

Definition to_size_t (x : Z) : Z := x mod 2 ^ size_bits.

(** The [do ... while (wrote == -1 && errno == EAGAIN)] of
    [gst_dccp_socket_write]. *)
Fixpoint write_again (fuel : nat) (w : world K) (socket : Z) (bytes : list byte)
  : option (Z * world K * write_log) :=
  match fuel with
  | O => None
  | S fuel' =>
    let '(wrote, errno, w) := sys_write K w socket bytes in
    if (wrote =? -1) && (errno =? EAGAIN) then
      match write_again fuel' w socket bytes with
      | None => None
      | Some (wrote', w', l) => Some (wrote', w', (bytes, wrote) :: l)
      end
    else Some (wrote, w, [(bytes, wrote)])
  end.

(** The [while (bytes_written < size)] loop. *)
Fixpoint socket_write_loop (fuel : nat) (w : world K) (socket : Z)
  (buf : list byte) (size : Z) (packet_size : Z) (bytes_written : Z)
  : option (Z * world K * write_log) :=
  if bytes_written <? size then
    match fuel with
    | O => None
    | S fuel' =>
      let a := to_size_t packet_size in
      let b := to_size_t (size - bytes_written) in
      let count := if a <? b then a else b in
      let bytes := firstn (Z.to_nat count) (skipn (Z.to_nat bytes_written) buf) in
      match write_again fuel w socket bytes with
      | None => None
      | Some (wrote, w, l) =>
        let bytes_written := to_size_t (bytes_written + wrote) in
        match socket_write_loop fuel' w socket buf size packet_size bytes_written with
        | None => None
        | Some (r, w', l') => Some (r, w', l ++ l')
        end
      end
    end
  else Some (bytes_written, w, []).

(** [size] is a [size_t]; the result is a [gint]. *)
Definition gst_dccp_socket_write (fuel : nat) (w : world K) (socket : Z)
  (buf : list byte) (size : Z) (packet_size : Z)
  : option (Z * world K * write_log) :=
  match socket_write_loop fuel w socket buf size packet_size 0 with
  | None => None
  | Some (bytes_written, w, l) => Some (to_gint bytes_written, w, l)
  end.

Definition gst_dccp_send_buffer (fuel : nat) (w : world K) (buffer : GstBuffer)
  (client_sock_fd : Z) (packet_size : Z)
  : option (GstFlowReturn * world K * write_log) :=
  let size := to_gint (Z.of_N (GST_BUFFER_SIZE buffer)) in
  let data := GST_BUFFER_DATA buffer in
  if packet_size <? 0 then Some (GST_FLOW_ERROR, w, [])
  else
    match gst_dccp_socket_write fuel w client_sock_fd data (to_size_t size)
            packet_size with
    | None => None
    | Some (r, w, l) =>
      let wrote := to_size_t r in
      if negb (wrote =? to_size_t size) then Some (GST_FLOW_ERROR, w, l)
      else Some (GST_FLOW_OK, w, l)
    end.

Definition gst_dccp_get_max_packet_size (w : world K) (sock : Z)
  : Z * world K * list resource_error :=
  let '(ret, size, w) := sys_cur_mps K w sock in
  if ret <? 0 then (-1, w, [RESOURCE_SETTINGS]) else (size, w, []).


(** The [for] loop of [gst_dccp_set_ccid] over the four entries. *)
Definition ccid_among (ccid : byte) (ccids : byte * byte * byte * byte) : bool :=
  let '(c0, c1, c2, c3) := ccids in
  fold_left (fun supported c => if Byte.eqb ccid c then true else supported)
    [c0; c1; c2; c3] false.

Definition gst_dccp_set_ccid (w : world K) (sock_fd : Z) (ccid : byte)
  : bool * world K :=
  let '(ret, ccids, w) := sys_available_ccids K w sock_fd in
  if ret <? 0 then (false, w)
  else if negb (ccid_among ccid ccids) then (false, w)
  else
    let '(ret, w) := sys_set_ccid K w sock_fd ccid in
    if ret <? 0 then (false, w) else (true, w).

End Dccp.

(** A kernel whose [write] takes at most three bytes at a time; the other
    calls succeed with fixed answers. *)
Definition slow_kernel : kernel :=
  mkKernel nat
    (fun w _ => (1, w))
    (fun w _ => (0, 5, w))
    (fun w _ n => (n, repeat x00 (Z.to_nat n), w))
    (fun w _ bytes => (Z.min 3 (Z.of_nat (length bytes)), 0, S w))
    (fun w _ => (0, (x02, x03, x00, x00)%byte, w))
    (fun w _ _ => (0, S w))
    (fun w _ => (0, 1400, w)).

(** The same kernel, except that every other [write] is answered with
    [EAGAIN]. *)
Definition busy_kernel : kernel :=
  mkKernel nat
    (fun w _ => (1, w))
    (fun w _ => (0, 5, w))
    (fun w _ n => (n, repeat x00 (Z.to_nat n), w))
    (fun w _ bytes =>
       if Nat.even w then (-1, EAGAIN, S w)
       else (Z.min 3 (Z.of_nat (length bytes)), 0, S w))
    (fun w _ => (0, (x02, x03, x00, x00)%byte, w))
    (fun w _ _ => (0, S w))
    (fun w _ => (0, 1400, w)).

(** A kernel whose [write] follows a script of answers, and takes everything
    once the script is over; its socket options cannot be read. *)
Definition scripted_kernel : kernel :=
  mkKernel (list (Z * Z))
    (fun w _ => (1, w))
    (fun w _ => (0, 0, w))
    (fun w _ n => (n, repeat x00 (Z.to_nat n), w))
    (fun w _ bytes =>
       match w with
       | [] => (Z.of_nat (length bytes), 0, [])
       | (r, e) :: w' => (r, e, w')
       end)
    (fun w _ => (-1, (x00, x00, x00, x00)%byte, w))
    (fun w _ _ => (-1, w))
    (fun w _ => (-1, 0, w)).

(** A five-byte buffer to send. *)
Definition five : GstBuffer := input_buffer ["h"; "e"; "l"; "l"; "o"]%byte.

Local Close Scope Z_scope.
(** * Facts *)

(** ** Machine arithmetic *)

Lemma wrap32_lt n : wrap32 n < 2 ^ 32.
Proof. unfold wrap32. apply N.mod_lt. discriminate. Qed.

Lemma wrap32_small n : n < 2 ^ 32 -> wrap32 n = n.
Proof. unfold wrap32. apply N.mod_small. Qed.

Lemma sub32_le a b : b < a -> sub32 a b <= a.
Proof.
  intros Hlt. unfold sub32, wrap32.
  assert (Hb : b mod 2 ^ 32 <= b) by (apply N.Div0.mod_le).
  assert (Hb' : b mod 2 ^ 32 < 2 ^ 32) by (apply N.mod_lt; discriminate).
  destruct (N.lt_ge_cases a (2 ^ 32)) as [Ha | Ha].
  - rewrite (N.mod_small b) by lia.
    replace (a + 2 ^ 32 - b) with (a - b + 1 * 2 ^ 32) by lia.
    rewrite N.Div0.mod_add. rewrite N.mod_small; lia.
  - assert (H : (a + 2 ^ 32 - b mod 2 ^ 32) mod 2 ^ 32 < 2 ^ 32)
      by (apply N.mod_lt; discriminate).
    lia.
Qed.

Lemma sub32_exact a b : a < 2 ^ 32 -> b <= a -> sub32 a b = a - b.
Proof.
  intros Ha Hb. unfold sub32, wrap32.
  rewrite (N.mod_small b) by lia.
  replace (a + 2 ^ 32 - b) with (a - b + 1 * 2 ^ 32) by lia.
  rewrite N.Div0.mod_add. apply N.mod_small. lia.
Qed.

(** [x - n] in 32 bits, when [x] is [T + n] in 32 bits, is [T] in 32 bits. *)
Lemma sub32_after_add T n : n < 2 ^ 32 -> sub32 (wrap32 (T + n)) n = T mod 2 ^ 32.
Proof.
  intros Hn. unfold sub32, wrap32.
  rewrite (N.mod_small n) by lia.
  assert (Hm : (T + n) mod 2 ^ 32 < 2 ^ 32) by (apply N.mod_lt; discriminate).
  assert (E : (T + n) mod 2 ^ 32 + 2 ^ 32 - n
              = (T + n) mod 2 ^ 32 + (2 ^ 32 - n)).
  { generalize dependent ((T + n) mod 2 ^ 32). intros x Hx. lia. }
  rewrite E, N.Div0.add_mod_idemp_l.
  replace (T + n + (2 ^ 32 - n)) with (T + 1 * 2 ^ 32) by lia.
  apply N.Div0.mod_add.
Qed.

(** ** The event log *)

Lemma handed_app l1 l2 : handed (l1 ++ l2) = handed l1 ++ handed l2.
Proof.
  induction l1 as [|e l1 IH]; [reflexivity|].
  destruct e; simpl; rewrite IH; reflexivity.
Qed.

Lemma codes_app l1 l2 : codes (l1 ++ l2) = codes l1 ++ codes l2.
Proof.
  induction l1 as [|e l1 IH]; [reflexivity|].
  destruct e; simpl; rewrite IH; reflexivity.
Qed.

Lemma posted_app l1 l2 : posted (l1 ++ l2) = posted l1 ++ posted l2.
Proof.
  induction l1 as [|e l1 IH]; [reflexivity|].
  destruct e; simpl; rewrite IH; reflexivity.
Qed.

Lemma answers_app l1 l2 : answers (l1 ++ l2) = answers l1 ++ answers l2.
Proof.
  induction l1 as [|e l1 IH]; [reflexivity|].
  destruct e; simpl; rewrite IH; reflexivity.
Qed.

Section ElementFacts.

Variable lib : bzlib.
Variable peer : pad_peer.

Local Abbreviation chain := (gst_bz2dec_chain lib peer).
Local Abbreviation loop := (chain_loop lib peer).
Local Abbreviation body := (chain_body lib peer).
Local Abbreviation decompress_init := (gst_bz2dec_decompress_init lib).
Local Abbreviation decompress_end := (gst_bz2dec_decompress_end lib).

(** ** Teardown and restart *)

Lemma decompress_end_eq (b : GstBz2dec lib) :
  decompress_end b
  = if ready b then mkBz2dec (buffer_size b) false zero_stream (offset b) else b.
Proof.
  unfold gst_bz2dec_decompress_end.
  destruct (ready b); [|reflexivity].
  destruct (BZ2_bzDecompressEnd lib (stream b)); reflexivity.
Qed.

(** C8. [gst_bz2dec_decompress_end] always returns; on an element that is not
    ready it changes nothing, on a ready one it leaves the session zeroed and
    [ready] false; and doing it twice is doing it once. *)
Theorem decompress_end_idempotent (b : GstBz2dec lib) :
  decompress_end (decompress_end b) = decompress_end b /\
  ready (decompress_end b) = false /\
  decompress_end b
  = (if ready b
     then mkBz2dec (buffer_size b) false zero_stream (offset b)
     else b).
Proof.
  rewrite !decompress_end_eq.
  destruct (ready b) eqn:E; cbn [ready]; rewrite ?E; auto.
Qed.

Lemma decompress_init_ready (b : GstBz2dec lib) :
  ready b = true ->
  fst (decompress_init b)
  = mkBz2dec (buffer_size b)
      (fst (BZ2_bzDecompressInit lib zero_stream) =? BZ_OK)%Z
      (snd (BZ2_bzDecompressInit lib zero_stream)) 0.
Proof.
  intros Hr. unfold gst_bz2dec_decompress_init.
  rewrite decompress_end_eq, Hr. cbn.
  destruct (BZ2_bzDecompressInit lib zero_stream) as [rc s]. cbn.
  destruct (rc =? BZ_OK)%Z; reflexivity.
Qed.

Lemma decompress_init_buffer_size (b : GstBz2dec lib) :
  buffer_size (fst (decompress_init b)) = buffer_size b.
Proof.
  unfold gst_bz2dec_decompress_init. rewrite decompress_end_eq.
  destruct (ready b); cbn;
    match goal with |- context [BZ2_bzDecompressInit lib ?s] =>
      destruct (BZ2_bzDecompressInit lib s) as [rc s'] end;
    destruct (rc =? BZ_OK)%Z; reflexivity.
Qed.

Lemma decompress_init_log (b : GstBz2dec lib) :
  handed (snd (decompress_init b)) = [] /\ codes (snd (decompress_init b)) = [].
Proof.
  unfold gst_bz2dec_decompress_init.
  match goal with |- context [BZ2_bzDecompressInit lib ?s] =>
    destruct (BZ2_bzDecompressInit lib s) as [rc s'] end.
  destruct (rc =? BZ_OK)%Z; split; reflexivity.
Qed.

Lemma decompress_init_answers (b : GstBz2dec lib) :
  answers (snd (decompress_init b)) = [].
Proof.
  unfold gst_bz2dec_decompress_init.
  match goal with |- context [BZ2_bzDecompressInit lib ?s] =>
    destruct (BZ2_bzDecompressInit lib s) as [rc s'] end.
  destruct (rc =? BZ_OK)%Z; reflexivity.
Qed.

(** ** One pass through the loop body *)

Ltac split_body b d :=
  unfold chain_body;
  destruct (gst_pad_alloc_buffer peer d (offset b) (buffer_size b))
    as [fr d1] eqn:Ealloc;
  destruct (flow_is_ok fr) eqn:Hfr; cbn [negb];
  [ cbn [GST_BUFFER_SIZE];
    destruct (BZ2_bzDecompress lib (set_avail_out (stream b) (buffer_size b)))
      as [[r1 s1] w1] eqn:Estep;
    fold (is_error r1);
    destruct (is_error r1) eqn:Herr;
    [ destruct (decompress_init (with_stream lib b s1)) as [b1 evs1] eqn:Einit
    | cbn [stream with_stream];
      destruct (buffer_size b <=? avail_out s1) eqn:Hfull;
      [ | destruct (gst_pad_push peer d1
                      (mkBuffer w1 (sub32 (buffer_size b) (avail_out s1))
                         (sub32 (total_out_lo32 s1)
                            (sub32 (buffer_size b) (avail_out s1)))))
            as [fr2 d2] eqn:Epush;
          destruct (flow_is_ok fr2) eqn:Hfr2; cbn [negb] ] ]
  | destruct (decompress_init b) as [b1 evs1] eqn:Einit ].

(** What stays the same when the loop goes round again. *)
Lemma body_again b d b' d' r evs :
  body b d = Again b' d' r evs ->
  buffer_size b' = buffer_size b /\ ready b' = ready b /\
  is_error r = false /\
  exists out, evs = [EvDecompress r; EvPush out GST_FLOW_OK].
Proof.
  split_body b d; intros H; try discriminate.
  inversion H; subst. destruct fr2; try discriminate.
  cbn. repeat split; eauto.
Qed.

Lemma loop_stream_end fuel b d :
  loop fuel b d BZ_STREAM_END = mkOutcome (Some GST_FLOW_OK) b d [].
Proof. destruct fuel; reflexivity. Qed.

(** ** Bounded output buffers *)

Lemma body_trimmed b d :
  match body b d with
  | Leave o => Forall (trimmed (buffer_size b)) (handed (log o))
  | Again _ _ _ evs => Forall (trimmed (buffer_size b)) (handed evs)
  end.
Proof.
  assert (Htrim : forall left w off,
             (buffer_size b <=? left) = false ->
             trimmed (buffer_size b)
               (mkBuffer w (sub32 (buffer_size b) left) off)).
  { intros left w off H. apply N.leb_gt in H.
    exists left. cbn. auto using sub32_le. }
  split_body b d; cbn [log handed].
  - pose proof (decompress_init_log (with_stream lib b s1)) as [E _].
    rewrite Einit in E. cbn in E. rewrite E. constructor.
  - constructor.
  - constructor; [apply Htrim; assumption | constructor].
  - constructor; [apply Htrim; assumption | constructor].
  - pose proof (decompress_init_log b) as [E _].
    rewrite Einit in E. cbn in E. rewrite E. constructor.
Qed.

Lemma loop_trimmed fuel : forall b d r,
  Forall (trimmed (buffer_size b)) (handed (log (loop fuel b d r))).
Proof.
  induction fuel as [|fuel IH]; intros b d r; cbn [chain_loop];
    destruct (r =? BZ_STREAM_END)%Z; try (cbn; constructor).
  pose proof (body_trimmed b d) as Hb.
  destruct (body b d) as [o | b' d' r' evs] eqn:E; [exact Hb|].
  apply body_again in E as (Hsize & _).
  cbn [before log]. rewrite handed_app. apply Forall_app. split; [exact Hb|].
  rewrite <- Hsize. apply IH.
Qed.

Lemma body_cut b d :
  match body b d with
  | Leave o =>
    Forall2 (cut_to lib (buffer_size b)) (handed (log o))
      (steps lib (buffer_size b) (length (handed (log o))) (stream b))
  | Again b' _ _ evs =>
    exists out,
      handed evs = [out] /\
      cut_to lib (buffer_size b) out
        (BZ2_bzDecompress lib (set_avail_out (stream b) (buffer_size b))) /\
      stream b'
      = snd (fst (BZ2_bzDecompress lib (set_avail_out (stream b) (buffer_size b))))
  end.
Proof.
  assert (Hcut : forall s left w off r,
             (buffer_size b <=? left) = false ->
             avail_out s = left ->
             cut_to lib (buffer_size b)
               (mkBuffer w (sub32 (buffer_size b) left) off) (r, s, w)).
  { intros s left w off r H E. apply N.leb_gt in H.
    unfold cut_to. cbn. rewrite E. repeat split; try assumption.
    intros Hcap. rewrite sub32_exact by lia. lia. }
  split_body b d; cbn [log handed length steps].
  - pose proof (decompress_init_log (with_stream lib b s1)) as [E _].
    rewrite Einit in E. cbn in E. rewrite E. constructor.
  - constructor.
  - eexists. split; [reflexivity|]. split; [apply Hcut; trivial | reflexivity].
  - rewrite Estep. constructor; [apply Hcut; trivial | constructor].
  - pose proof (decompress_init_log b) as [E _].
    rewrite Einit in E. cbn in E. rewrite E. constructor.
Qed.

Lemma loop_cut fuel : forall b d r,
  Forall2 (cut_to lib (buffer_size b)) (handed (log (loop fuel b d r)))
    (steps lib (buffer_size b) (length (handed (log (loop fuel b d r))))
       (stream b)).
Proof.
  induction fuel as [|fuel IH]; intros b d r; cbn [chain_loop];
    destruct (r =? BZ_STREAM_END)%Z; try (cbn; constructor).
  pose proof (body_cut b d) as Hb.
  destruct (body b d) as [o | b' d' r' evs] eqn:E; [exact Hb|].
  destruct Hb as (out & Hout & Hcut & Hs).
  apply body_again in E as (Hsize & _).
  cbn [before log]. rewrite handed_app, Hout.
  cbn [app length steps]. constructor; [exact Hcut|].
  rewrite <- Hs, <- Hsize. apply IH.
Qed.

(** C5. Every buffer given to [gst_pad_push] was allocated with
    [buffer_size] bytes and has been cut down by the [avail_out] that the
    decompression step left in it: the sizes of the buffers pushed are, one
    by one, [buffer_size] less the [avail_out] left by the successive steps
    of libbz2 on the session bound to the input, each of which is less than
    [buffer_size], and their data are the bytes those steps stored.  So no
    buffer pushed is larger than [buffer_size]. *)
Theorem pushed_buffers_within_buffer_size fuel (b : GstBz2dec lib) d inb :
  let l := handed (log (chain fuel b d inb)) in
  Forall (trimmed (buffer_size b)) l /\
  Forall (fun c => GST_BUFFER_SIZE c <= buffer_size b) l /\
  Forall2 (cut_to lib (buffer_size b)) l
    (steps lib (buffer_size b) (length l)
       (set_input (stream b) (GST_BUFFER_DATA inb) (GST_BUFFER_SIZE inb))).
Proof.
  cbn zeta.
  assert (H : Forall (trimmed (buffer_size b)) (handed (log (chain fuel b d inb)))).
  { unfold gst_bz2dec_chain. destruct (ready b); cbn [negb].
    - apply (loop_trimmed fuel (with_stream lib b _)).
    - cbn. constructor. }
  split; [exact H|]. split.
  - eapply Forall_impl; [|exact H].
    intros c (left & _ & _ & Hle). exact Hle.
  - unfold gst_bz2dec_chain. destruct (ready b); cbn [negb].
    + apply (loop_cut fuel (with_stream lib b _)).
    + cbn. constructor.
Qed.

(** ** Not ready *)

(** C6. Called on an element that is not ready, [gst_bz2dec_chain] posts
    "Decompressor not ready.", returns [GST_FLOW_ERROR], runs no
    decompression step, pushes nothing and leaves the element and the peer
    as they were. *)
Theorem chain_not_ready fuel (b : GstBz2dec lib) d inb :
  ready b = false ->
  let o := chain fuel b d inb in
  flow o = Some GST_FLOW_ERROR /\
  posted (log o) = [Decompressor_not_ready] /\
  codes (log o) = [] /\
  handed (log o) = [] /\
  element o = b /\
  downstream o = d.
Proof.
  intros Hr. unfold gst_bz2dec_chain. rewrite Hr. cbn. auto 10.
Qed.

(** ** Decode errors *)

Lemma body_decode_error b d :
  ready b = true ->
  match body b d with
  | Leave o =>
    forall r, In r (codes (log o)) -> is_error r = true ->
      flow o = Some GST_FLOW_ERROR /\
      element o = restarted lib (buffer_size b) /\
      In (Failed_to_decompress_data r) (posted (log o))
  | Again _ _ _ evs =>
    forall r, In r (codes evs) -> is_error r = false
  end.
Proof.
  intros Hready. split_body b d; cbn [log flow element codes].
  - intros r [<- | Hin] _.
    + pose proof (decompress_init_ready (with_stream lib b s1) Hready) as E.
      rewrite Einit in E. cbn in E. cbn. auto.
    + pose proof (decompress_init_log (with_stream lib b s1)) as [_ E].
      rewrite Einit in E. cbn in E, Hin. rewrite E in Hin. destruct Hin.
  - intros r [<- | []] H. congruence.
  - intros r [<- | []]. assumption.
  - intros r [<- | []] H. congruence.
  - intros r Hin. pose proof (decompress_init_log b) as [_ E].
    rewrite Einit in E. cbn in E. rewrite E in Hin. destruct Hin.
Qed.

Lemma loop_decode_error fuel : forall b d r0,
  ready b = true ->
  forall r, In r (codes (log (loop fuel b d r0))) -> is_error r = true ->
    flow (loop fuel b d r0) = Some GST_FLOW_ERROR /\
    element (loop fuel b d r0) = restarted lib (buffer_size b) /\
    In (Failed_to_decompress_data r) (posted (log (loop fuel b d r0))).
Proof.
  induction fuel as [|fuel IH]; intros b d r0 Hready r; cbn [chain_loop];
    destruct (r0 =? BZ_STREAM_END)%Z; try (cbn; intros []).
  pose proof (body_decode_error b d Hready) as Hb.
  destruct (body b d) as [o | b' d' r' evs] eqn:E; [apply Hb|].
  apply body_again in E as (Hsize & Hr & _).
  cbn [before log flow element]. rewrite codes_app, posted_app.
  intros Hin Herr. apply in_app_or in Hin as [Hin | Hin].
  - apply Hb in Hin. congruence.
  - rewrite <- Hr in Hready.
    destruct (IH b' d' r' Hready r Hin Herr) as (Hf & He & Hp).
    rewrite Hf, He, Hsize. auto using in_or_app.
Qed.

(** C4. When a decompression step of a call returns a code other than
    [BZ_OK] and [BZ_STREAM_END], the call posts the decode error with that
    code and returns [GST_FLOW_ERROR], and, the restart of the session having
    succeeded, it leaves the element ready, at offset 0, on the fresh
    session. *)
Theorem chain_decode_error fuel (b : GstBz2dec lib) d inb r :
  In r (codes (log (chain fuel b d inb))) ->
  is_error r = true ->
  fst (BZ2_bzDecompressInit lib zero_stream) = BZ_OK ->
  let o := chain fuel b d inb in
  flow o = Some GST_FLOW_ERROR /\
  In (Failed_to_decompress_data r) (posted (log o)) /\
  ready (element o) = true /\
  offset (element o) = 0 /\
  stream (element o) = snd (BZ2_bzDecompressInit lib zero_stream).
Proof.
  unfold gst_bz2dec_chain.
  destruct (ready b) eqn:Hready; cbn [negb].
  - intros Hin Herr Hinit.
    destruct (loop_decode_error fuel (with_stream lib b _) d BZ_OK Hready r Hin Herr)
      as (Hf & He & Hp).
    cbn zeta. rewrite Hf, He. unfold restarted. rewrite Hinit. cbn. auto.
  - cbn. intros [].
Qed.

(** ** Failure of the allocation *)

Lemma body_alloc_failure b d :
  flow_is_ok (fst (gst_pad_alloc_buffer peer d (offset b) (buffer_size b))) = false ->
  body b d
  = Leave (mkOutcome
             (Some (fst (gst_pad_alloc_buffer peer d (offset b) (buffer_size b))))
             (fst (decompress_init b))
             (snd (gst_pad_alloc_buffer peer d (offset b) (buffer_size b)))
             (snd (decompress_init b))).
Proof.
  intros H. unfold chain_body.
  destruct (gst_pad_alloc_buffer peer d (offset b) (buffer_size b)) as [fr d1].
  cbn in H. rewrite H. cbn.
  destruct (decompress_init b); reflexivity.
Qed.

(** ** Offsets *)

Lemma stamped_from_app T l1 l2 :
  stamped_from T (l1 ++ l2) <->
  stamped_from T l1 /\ stamped_from (T + total_size l1) l2.
Proof.
  revert T. induction l1 as [|c l1 IH]; intros T; cbn.
  - rewrite N.add_0_r. tauto.
  - rewrite IH, N.add_assoc. tauto.
Qed.

(** Below 2^32 bytes the stamps are the offsets themselves: each non-empty
    buffer starts where the one before it stopped. *)
Lemma stamped_contiguous : forall l T,
  stamped_from T l ->
  Forall (fun c => 0 < GST_BUFFER_SIZE c) l ->
  T + total_size l <= 2 ^ 32 ->
  contiguous (offsets_and_sizes l).
Proof.
  induction l as [|c1 l IH]; intros T Hst Hpos Hsum; [exact I|].
  destruct l as [|c2 l]; [exact I|].
  pose proof (IH _ (proj2 Hst) (Forall_inv_tail Hpos)) as IH'.
  destruct Hst as (E1 & E2 & _).
  apply Forall_cons_iff in Hpos as (P1 & Hpos).
  apply Forall_cons_iff in Hpos as (P2 & _).
  cbn [total_size fold_right] in Hsum, IH'.
  change (offsets_and_sizes (c1 :: c2 :: l))
    with ((GST_BUFFER_OFFSET c1, GST_BUFFER_SIZE c1)
            :: offsets_and_sizes (c2 :: l)).
  change (offsets_and_sizes (c2 :: l))
    with ((GST_BUFFER_OFFSET c2, GST_BUFFER_SIZE c2) :: offsets_and_sizes l)
    in *.
  cbn [contiguous].
  rewrite N.mod_small in E1 by lia. rewrite N.mod_small in E2 by lia.
  repeat split; [lia | lia |].
  apply IH'. lia.
Qed.

Lemma total_size_app l1 l2 : total_size (l1 ++ l2) = total_size l1 + total_size l2.
Proof.
  induction l1 as [|c l1 IH]; cbn; [reflexivity|].
  unfold total_size in IH. rewrite IH. apply N.add_assoc.
Qed.

Lemma wrap32_add_l a b : wrap32 (wrap32 a + b) = wrap32 (a + b).
Proof. unfold wrap32. apply N.Div0.add_mod_idemp_l. Qed.

Section Counting.

Hypothesis Hcounts : counts_output lib.

Lemma body_stamps b d T :
  buffer_size b < 2 ^ 32 ->
  total_out_lo32 (stream b) = wrap32 T ->
  match body b d with
  | Leave o =>
    stamped_from T (handed (log o)) /\
    (flow o = Some GST_FLOW_OK ->
     total_out_lo32 (stream (element o)) = wrap32 (T + total_size (handed (log o))))
  | Again b' _ _ evs =>
    stamped_from T (handed evs) /\
    total_out_lo32 (stream b') = wrap32 (T + total_size (handed evs))
  end.
Proof.
  intros Hsize HT.
  assert (Hwf : total_out_lo32 (set_avail_out (stream b) (buffer_size b)) < 2 ^ 32)
    by (unfold set_avail_out; cbn [total_out_lo32]; rewrite HT; apply wrap32_lt).
  assert (Hpush : forall r s w,
    BZ2_bzDecompress lib (set_avail_out (stream b) (buffer_size b)) = (r, s, w) ->
    (buffer_size b <=? avail_out s) = false ->
    GST_BUFFER_OFFSET
      (mkBuffer w (sub32 (buffer_size b) (avail_out s))
         (sub32 (total_out_lo32 s) (sub32 (buffer_size b) (avail_out s))))
    = T mod 2 ^ 32 /\
    total_out_lo32 s = wrap32 (T + (sub32 (buffer_size b) (avail_out s) + 0))).
  { intros r s w Hs Hfull. apply N.leb_gt in Hfull.
    destruct (Hcounts _ _ _ _ Hs Hwf) as [Hle Htot]. cbn in Hle, Htot.
    rewrite sub32_exact by lia. rewrite N.add_0_r.
    rewrite HT, wrap32_add_l in Htot. rewrite Htot. split; [|reflexivity].
    cbn. apply sub32_after_add. lia. }
  split_body b d; cbn [log flow element handed stamped_from total_size fold_right].
  - pose proof (decompress_init_log (with_stream lib b s1)) as [E _].
    rewrite Einit in E. cbn in E. rewrite E. cbn. split; [exact I | discriminate].
  - split; [exact I|]. intros _. cbn [stream with_stream].
    apply N.leb_le in Hfull.
    destruct (Hcounts _ _ _ _ Estep Hwf) as [Hle Htot]. cbn in Hle, Htot.
    replace (buffer_size b - avail_out s1) with 0 in Htot by lia.
    rewrite HT, wrap32_add_l in Htot. exact Htot.
  - destruct (Hpush _ _ _ eq_refl Hfull) as [Ho Ht].
    split; [split; [exact Ho | exact I]|]. exact Ht.
  - destruct (Hpush _ _ _ eq_refl Hfull) as [Ho Ht].
    split; [split; [exact Ho | exact I]|].
    intros H. inversion H; subst. discriminate.
  - pose proof (decompress_init_log b) as [E _].
    rewrite Einit in E. cbn in E. rewrite E. cbn. split; [exact I|].
    intros H. inversion H; subst. discriminate.
Qed.

Lemma loop_stamps fuel : forall b d r T,
  buffer_size b < 2 ^ 32 ->
  total_out_lo32 (stream b) = wrap32 T ->
  stamped_from T (handed (log (loop fuel b d r))) /\
  (flow (loop fuel b d r) = Some GST_FLOW_OK ->
   total_out_lo32 (stream (element (loop fuel b d r)))
   = wrap32 (T + total_size (handed (log (loop fuel b d r))))).
Proof.
  induction fuel as [|fuel IH]; intros b d r T Hsize HT; cbn [chain_loop];
    destruct (r =? BZ_STREAM_END)%Z;
    try (cbn; rewrite N.add_0_r; split; [exact I | auto; discriminate]).
  pose proof (body_stamps b d T Hsize HT) as Hb.
  destruct (body b d) as [o | b' d' r' evs] eqn:E; [exact Hb|].
  apply body_again in E as (Hsz & _).
  destruct Hb as [Hst Htot].
  rewrite <- Hsz in Hsize.
  destruct (IH b' d' r' _ Hsize Htot) as [IH1 IH2].
  cbn [before log flow element].
  rewrite handed_app, total_size_app, N.add_assoc.
  split; [apply stamped_from_app; auto | exact IH2].
Qed.

Lemma chain_stamps fuel (b : GstBz2dec lib) d inb T :
  buffer_size b < 2 ^ 32 ->
  total_out_lo32 (stream b) = wrap32 T ->
  stamped_from T (handed (log (chain fuel b d inb))) /\
  (flow (chain fuel b d inb) = Some GST_FLOW_OK ->
   total_out_lo32 (stream (element (chain fuel b d inb)))
   = wrap32 (T + total_size (handed (log (chain fuel b d inb))))).
Proof.
  intros Hsize HT. unfold gst_bz2dec_chain.
  destruct (ready b); cbn [negb].
  - apply loop_stamps; assumption.
  - cbn. split; [exact I | discriminate].
Qed.

(** C10. With libbz2 counting its output in [total_out_lo32], on an element
    whose session has stored [T] bytes so far, every buffer pushed by a call
    carries as offset the number of bytes stored before it, modulo 2^32,
    whatever the 64-bit [offset] of the element is; and the count goes on
    from there when the call returns [GST_FLOW_OK]. *)
Theorem offsets_are_counts_mod_2_32 fuel (b : GstBz2dec lib) d inb T :
  buffer_size b < 2 ^ 32 ->
  total_out_lo32 (stream b) = wrap32 T ->
  let o := chain fuel b d inb in
  stamped_from T (handed (log o)) /\
  (flow o = Some GST_FLOW_OK ->
   total_out_lo32 (stream (element o))
   = wrap32 (T + total_size (handed (log o)))).
Proof.
  intros Hsize HT. cbn zeta. unfold gst_bz2dec_chain.
  destruct (ready b); cbn [negb].
  - apply loop_stamps.
    + exact Hsize.
    + cbn [stream with_stream set_input total_out_lo32]. exact HT.
  - cbn. split; [exact I | discriminate].
Qed.

End Counting.

(** ** Termination *)

Section Bounded.

Variable mu : bz_stream (bz_state lib) -> nat.
Hypothesis Hmu : output_bounded_by lib mu.

Lemma body_measure b d b' d' r evs :
  body b d = Again b' d' r evs -> (mu (stream b') < mu (stream b))%nat.
Proof.
  split_body b d; intros H; try discriminate.
  inversion H; subst. cbn.
  apply N.leb_gt in Hfull. eapply Hmu; eassumption.
Qed.

Lemma loop_terminates fuel : forall b d r,
  (mu (stream b) < fuel)%nat ->
  flow (loop fuel b d r) <> None /\
  (length (codes (log (loop fuel b d r))) <= S (mu (stream b)))%nat.
Proof.
  induction fuel as [|fuel IH]; intros b d r Hfuel; [lia|].
  cbn [chain_loop]. destruct (r =? BZ_STREAM_END)%Z.
  { cbn. split; [discriminate | lia]. }
  destruct (body b d) as [o | b' d' r' evs] eqn:E.
  - revert E. split_body b d; intros E; inversion E; subst; cbn;
      (split; [discriminate|]).
    + pose proof (decompress_init_log (with_stream lib b s1)) as [_ E'].
      rewrite Einit in E'. cbn in E'. rewrite E'. cbn. lia.
    + lia.
    + lia.
    + pose proof (decompress_init_log b) as [_ E'].
      rewrite Einit in E'. cbn in E'. rewrite E'. cbn. lia.
  - pose proof (body_measure _ _ _ _ _ _ E) as Hlt.
    apply body_again in E as (_ & _ & _ & out & ->).
    destruct (IH b' d' r') as [IH1 IH2]; [lia|].
    cbn [before flow log]. rewrite codes_app, length_app. cbn.
    split; [exact IH1 | lia].
Qed.

Lemma removelast_cons {A} (r : A) l :
  removelast (r :: l) = match l with [] => [] | _ => r :: removelast l end.
Proof. destruct l; reflexivity. Qed.

(** Only the last step of a call can return something else than [BZ_OK]. *)
Lemma loop_codes fuel : forall b d r0,
  Forall (fun r => r = BZ_OK) (removelast (codes (log (loop fuel b d r0)))).
Proof.
  induction fuel as [|fuel IH]; intros b d r0; cbn [chain_loop];
    destruct (r0 =? BZ_STREAM_END)%Z; try (cbn; constructor).
  destruct (body b d) as [o | b' d' r' evs] eqn:E.
  - revert E. split_body b d; intros E; inversion E; subst; cbn [log codes];
      try (cbn; constructor).
    + pose proof (decompress_init_log (with_stream lib b s1)) as [_ E'].
      rewrite Einit in E'. cbn in E'. rewrite E'. cbn. constructor.
    + pose proof (decompress_init_log b) as [_ E'].
      rewrite Einit in E'. cbn in E'. rewrite E'. cbn. constructor.
  - apply body_again in E as (_ & _ & Herr & out & ->).
    cbn [before log]. rewrite codes_app. cbn [codes app].
    rewrite removelast_cons. specialize (IH b' d' r').
    destruct (codes (log (loop fuel b' d' r'))) as [|r2 l] eqn:El; [constructor|].
    constructor; [|exact IH].
    destruct (r' =? BZ_STREAM_END)%Z eqn:Eend.
    + apply Z.eqb_eq in Eend. subst r'. rewrite loop_stream_end in El.
      discriminate.
    + unfold is_error in Herr. rewrite Eend in Herr. cbn in Herr.
      rewrite andb_true_r in Herr. apply negb_false_iff, Z.eqb_eq in Herr.
      exact Herr.
Qed.

(** Every step but the last is followed by a push, and only the last push
    can be refused. *)
Lemma loop_pushes fuel : forall b d r0,
  (length (codes (log (loop fuel b d r0)))
   <= S (length (handed (log (loop fuel b d r0)))))%nat /\
  Forall (fun fr => fr = GST_FLOW_OK)
    (removelast (answers (log (loop fuel b d r0)))).
Proof.
  induction fuel as [|fuel IH]; intros b d r0; cbn [chain_loop];
    destruct (r0 =? BZ_STREAM_END)%Z;
    try (cbn; split; [lia | constructor]).
  destruct (body b d) as [o | b' d' r' evs] eqn:E.
  - revert E. split_body b d; intros E; inversion E; subst;
      cbn [log codes handed answers];
      try (cbn; split; [lia | constructor]).
    + pose proof (decompress_init_log (with_stream lib b s1)) as [E1 E2].
      pose proof (decompress_init_answers (with_stream lib b s1)) as E3.
      rewrite Einit in E1, E2, E3. cbn in E1, E2, E3. rewrite E1, E2, E3.
      cbn. split; [lia | constructor].
    + pose proof (decompress_init_log b) as [E1 E2].
      pose proof (decompress_init_answers b) as E3.
      rewrite Einit in E1, E2, E3. cbn in E1, E2, E3. rewrite E1, E2, E3.
      cbn. split; [lia | constructor].
  - apply body_again in E as (_ & _ & _ & out & ->).
    destruct (IH b' d' r') as [IH1 IH2].
    cbn [before log]. rewrite codes_app, handed_app, answers_app.
    cbn [codes handed answers app length]. split; [lia|].
    rewrite removelast_cons.
    destruct (answers (log (loop fuel b' d' r'))) as [|fr3 l]; [constructor|].
    constructor; [reflexivity | exact IH2].
Qed.

(** C9, amended. When the output the session can still produce is bounded
    by a measure that goes down with every step that stores a byte, a call
    whose budget exceeds the measure returns.  The loop runs at most one
    step more than the measure; it is left at the first step that returns
    something else than [BZ_OK], at the first step that is not followed by a
    push because it stored nothing, and at the first push the peer
    refuses. *)
Theorem chain_terminates fuel (b : GstBz2dec lib) d inb :
  (mu (set_input (stream b) (GST_BUFFER_DATA inb) (GST_BUFFER_SIZE inb)) < fuel)%nat ->
  let o := chain fuel b d inb in
  flow o <> None /\
  (length (codes (log o))
   <= S (mu (set_input (stream b) (GST_BUFFER_DATA inb) (GST_BUFFER_SIZE inb))))%nat /\
  Forall (fun r => r = BZ_OK) (removelast (codes (log o))) /\
  (length (codes (log o)) <= S (length (handed (log o))))%nat /\
  Forall (fun fr => fr = GST_FLOW_OK) (removelast (answers (log o))).
Proof.
  intros Hfuel. unfold gst_bz2dec_chain.
  destruct (ready b); cbn [negb].
  - cbn zeta. split; [|split; [|split]].
    + apply (loop_terminates fuel (with_stream lib b _) d BZ_OK Hfuel).
    + apply (loop_terminates fuel (with_stream lib b _) d BZ_OK Hfuel).
    + apply loop_codes.
    + apply loop_pushes.
  - cbn. repeat split; try discriminate; try lia; constructor.
Qed.

End Bounded.

(** ** With a peer that accepts everything *)

Lemma body_accepting b d r s w :
  accepts peer ->
  BZ2_bzDecompress lib (set_avail_out (stream b) (buffer_size b)) = (r, s, w) ->
  is_error r = false ->
  let d1 := snd (gst_pad_alloc_buffer peer d (offset b) (buffer_size b)) in
  let size := sub32 (buffer_size b) (avail_out s) in
  let out := mkBuffer w size (sub32 (total_out_lo32 s) size) in
  body b d
  = if buffer_size b <=? avail_out s
    then Leave (mkOutcome (Some GST_FLOW_OK) (with_stream lib b s) d1
                  [EvDecompress r])
    else Again (with_offset lib (with_stream lib b s) (wrap64 (offset b + size)))
               (snd (gst_pad_push peer d1 out)) r
               [EvDecompress r; EvPush out GST_FLOW_OK].
Proof.
  intros [Halloc Hpush] Hstep Herr. cbn zeta. unfold chain_body.
  specialize (Halloc d (offset b) (buffer_size b)).
  destruct (gst_pad_alloc_buffer peer d (offset b) (buffer_size b)) as [fr d1].
  cbn in Halloc. subst fr. cbn [flow_is_ok negb GST_BUFFER_SIZE snd].
  rewrite Hstep. fold (is_error r). rewrite Herr. cbn [stream with_stream].
  destruct (buffer_size b <=? avail_out s); [reflexivity|].
  match goal with |- context [gst_pad_push peer d1 ?o] =>
    specialize (Hpush d1 o); destruct (gst_pad_push peer d1 o) as [fr d2] end.
  cbn in Hpush. subst fr. reflexivity.
Qed.

End ElementFacts.

(** ** The model of libbz2 *)

Section MachineFacts.

Variable M : machine.

Lemma bz_run_eq inp cap s :
  bz_run M inp cap s
  = match next M s with
    | Need k =>
      match inp with
      | [] => (BZ_OK, Running s, [], [])
      | x :: inp' => bz_run M inp' cap (k x)
      end
    | Emit x s' =>
      match cap with
      | O => (BZ_OK, Running s, inp, [])
      | S cap' =>
        let '(r, q, rest, out) := bz_run M inp cap' s' in (r, q, rest, x :: out)
      end
    | Finish => (BZ_STREAM_END, Idle, inp, [])
    | Fail => (BZ_DATA_ERROR, Running s, inp, [])
    end.
Proof. destruct inp, cap; reflexivity. Qed.

(** A call never reads past its input nor stores more than there is room
    for. *)
Lemma bz_run_shape inp : forall cap s r q rest out,
  bz_run M inp cap s = (r, q, rest, out) ->
  (exists pre, inp = pre ++ rest) /\ (length out <= cap)%nat.
Proof.
  induction inp as [|x inp IHinp]; induction cap as [|cap IHcap];
    intros s r q rest out; rewrite bz_run_eq;
    destruct (next M s) as [k | y s' | | ] eqn:E; intros H;
    try (inversion H; subst; split; [exists []; reflexivity | cbn; lia]).
  - destruct (bz_run M [] cap s') as [[[r' q'] rest'] out'] eqn:E'.
    inversion H; subst. apply IHcap in E' as [Hpre Hlen].
    split; [exact Hpre | cbn; lia].
  - apply IHinp in H as [[pre ->] Hlen].
    split; [exists (x :: pre); reflexivity | exact Hlen].
  - apply IHinp in H as [[pre ->] Hlen].
    split; [exists (x :: pre); reflexivity | exact Hlen].
  - destruct (bz_run M (x :: inp) cap s') as [[[r' q'] rest'] out'] eqn:E'.
    inversion H; subst. apply IHcap in E' as [Hpre Hlen].
    split; [exact Hpre | cbn; lia].
Qed.

(** With room for all its output the machine runs until it stops. *)
Lemma bz_run_all s inp out q rest h :
  runs s inp out q rest h ->
  forall cap, (length out <= cap)%nat ->
  bz_run M inp cap s = (code_of h, q, rest, out).
Proof.
  induction 1 as [s k E | s k x inp out q rest h E _ IH
                 | s x s' inp out q rest h E _ IH | s inp E | s inp E];
    intros cap Hcap; rewrite bz_run_eq, E; try reflexivity.
  - apply IH. exact Hcap.
  - destruct cap as [|cap]; [cbn in Hcap; lia|].
    rewrite (IH cap) by (cbn in Hcap; lia). reflexivity.
Qed.

(** With less room it fills the buffer and goes on from where it is. *)
Lemma bz_run_part s inp out q rest h :
  runs s inp out q rest h ->
  forall cap, (cap < length out)%nat ->
  exists s1 rest1,
    bz_run M inp cap s = (BZ_OK, Running s1, rest1, firstn cap out) /\
    runs s1 rest1 (skipn cap out) q rest h.
Proof.
  induction 1 as [s k E | s k x inp out q rest h E Hr IH
                 | s x s' inp out q rest h E Hr IH | s inp E | s inp E];
    intros cap Hcap; try (cbn in Hcap; lia); rewrite bz_run_eq, E.
  - apply IH. exact Hcap.
  - destruct cap as [|cap].
    + exists s, inp. split; [reflexivity|]. cbn. eapply runs_emit; eassumption.
    + destruct (IH cap) as (s1 & rest1 & Hrun & Hrest); [cbn in Hcap; lia|].
      exists s1, rest1. rewrite Hrun. split; [reflexivity | exact Hrest].
Qed.

(** A machine that stopped for want of input wants input. *)
Lemma runs_starved_inv (s : mstate M) inp out q rest :
  runs s inp out q rest Starved ->
  rest = [] /\ exists s' : mstate M, q = Running s' /\ runs s' [] [] (Running s') [] Starved.
Proof.
  remember Starved as h eqn:Eh.
  induction 1 as [s k E | s k x inp out q rest h E Hr IH
                 | s x s' inp out q rest h E Hr IH | s inp E | s inp E];
    try discriminate; auto.
  split; [reflexivity|]. exists s. split; [reflexivity|].
  eapply runs_starved; eassumption.
Qed.

(** A stream cut in two: the machine is starved at the cut. *)
Lemma runs_split (s : mstate M) inp out q :
  runs s inp out q [] Ended ->
  forall i j, inp = i ++ j -> j <> [] ->
  exists o1 o2 (s1 : mstate M),
    runs s i o1 (Running s1) [] Starved /\
    runs s1 j o2 q [] Ended /\
    out = o1 ++ o2.
Proof.
  remember [] as rest eqn:Erest. remember Ended as h eqn:Eh.
  induction 1 as [s k E | s k x inp out q rest h E Hr IH
                 | s x s' inp out q rest h E Hr IH | s inp E | s inp E];
    intros i j Hij Hj; subst; try discriminate.
  - destruct i as [|y i].
    + cbn in Hij. subst j.
      exists [], out, s. repeat split.
      * eapply runs_starved; eassumption.
      * eapply runs_read; eassumption.
    + cbn in Hij. inversion Hij; subst.
      destruct (IH eq_refl eq_refl i j eq_refl Hj) as (o1 & o2 & s1 & H1 & H2 & ->).
      exists o1, o2, s1. repeat split; [|exact H2].
      eapply runs_read; eassumption.
  - destruct (IH eq_refl eq_refl i j eq_refl Hj) as (o1 & o2 & s1 & H1 & H2 & ->).
    exists (x :: o1), o2, s1. repeat split; [|exact H2].
    eapply runs_emit; eassumption.
  - destruct i, j; cbn in Hij; try discriminate. now elim Hj.
Qed.

(** [machine_decompress] on a session bound to its input. *)
Lemma machine_decompress_bound strm s inp r q rest out :
  bound_to strm s inp ->
  bz_run M inp (N.to_nat (avail_out strm)) s = (r, q, rest, out) ->
  exists strm',
    machine_decompress M strm = (r, strm', out) /\
    state strm' = Some q /\
    next_in strm' = rest /\
    avail_in strm' = N.of_nat (length rest) /\
    avail_out strm' = avail_out strm - N.of_nat (length out) /\
    total_out_lo32 strm'
    = wrap32 (total_out_lo32 strm + N.of_nat (length out)).
Proof.
  intros (Hs & Hin & Hav) Hrun. unfold machine_decompress.
  rewrite Hs, Hin, Hav, Nat2N.id, firstn_all, Hrun.
  eexists. split; [reflexivity|]. cbn.
  apply bz_run_shape in Hrun as [[pre ->] _].
  rewrite length_app.
  replace (length pre + length rest - length rest)%nat with (length pre) by lia.
  rewrite skipn_app, skipn_all, Nat.sub_diag. cbn.
  repeat split. lia.
Qed.

Lemma machine_counts_output : counts_output (machine_lib M).
Proof.
  unfold counts_output. cbn [bz_state BZ2_bzDecompress machine_lib].
  intros strm r strm' w. unfold machine_decompress.
  destruct (state strm) as [[s|]|].
  - match goal with |- context [bz_run M ?i ?c s] =>
      destruct (bz_run M i c s) as [[[r' q] rest] out] eqn:Hrun end.
    intros H Hwf. inversion H; subst. cbn.
    apply bz_run_shape in Hrun as [_ Hlen].
    split; [lia|]. unfold count_lo. f_equal. lia.
  - intros H Hwf. inversion H; subst.
    split; [lia|]. rewrite N.sub_diag, N.add_0_r, wrap32_small; auto.
  - intros H Hwf. inversion H; subst.
    split; [lia|]. rewrite N.sub_diag, N.add_0_r, wrap32_small; auto.
Qed.

End MachineFacts.

(** ** The element on the model of libbz2 *)

Lemma pieces_nil n cap : pieces n cap [] = [].
Proof. destruct n; reflexivity. Qed.

Lemma pieces_enough cap : forall n l,
  (0 < cap)%nat -> (length l <= n)%nat -> pieces n cap l = pieces (length l) cap l.
Proof.
  induction n as [n IH] using lt_wf_ind. intros l Hcap Hn.
  destruct l as [|x l]; [apply pieces_nil|].
  destruct n as [|n]; [cbn in Hn; lia|].
  cbn [length pieces].
  assert (Hlen : (length (skipn cap (x :: l)) <= length l)%nat)
    by (rewrite length_skipn; cbn [length]; lia).
  cbn [length] in Hn.
  f_equal. rewrite (IH n); [|lia|exact Hcap|lia].
  symmetry. apply IH; [lia|exact Hcap|exact Hlen].
Qed.

Lemma concat_pieces cap : forall n l,
  (0 < cap)%nat -> (length l <= n)%nat -> concat (pieces n cap l) = l.
Proof.
  induction n as [|n IH]; intros l Hcap Hn.
  - destruct l; [reflexivity | cbn in Hn; lia].
  - destruct l as [|x l]; [reflexivity|].
    cbn [pieces concat]. rewrite IH; [apply firstn_skipn | exact Hcap |].
    rewrite length_skipn. cbn [length] in *. lia.
Qed.

Lemma fed_payload_cons {lib peer} (o : outcome lib peer) os :
  fed_payload (o :: os) = payload (log o) ++ fed_payload os.
Proof. reflexivity. Qed.

Section Decoding.

Variable M : machine.
Variable peer : pad_peer.
Hypothesis Haccepts : accepts peer.

Local Abbreviation lib := (machine_lib M).

Lemma loop_runs : forall n out,
  length out = n ->
  forall (s : mstate M) inp q rest h (b : GstBz2dec lib) d fuel,
  runs s inp out q rest h ->
  h <> Broken ->
  bound_to (stream b) s inp ->
  0 < buffer_size b < 2 ^ 32 ->
  (length (pieces (length out) (N.to_nat (buffer_size b)) out) < fuel)%nat ->
  decoded b out q h (chain_loop lib peer fuel b d BZ_OK).
Proof.
  induction n as [n IH] using lt_wf_ind.
  intros out Hn s inp q rest h b d fuel Hruns Hh Hbound Hsize Hfuel.
  destruct fuel as [|fuel]; [lia|].
  cbn [chain_loop]. change (BZ_OK =? BZ_STREAM_END)%Z with false. cbn iota.
  set (cap := N.to_nat (buffer_size b)) in *.
  assert (Hbound' : bound_to (set_avail_out (stream b) (buffer_size b)) s inp)
    by exact Hbound.
  assert (Herr : is_error (code_of h) = false)
    by (destruct h; [reflexivity | reflexivity | congruence]).
  destruct (le_lt_dec (length out) cap) as [Hfit | Hbig].
  - (* the machine stops within this step *)
    pose proof (bz_run_all M _ _ _ _ _ _ Hruns cap Hfit) as Hrun.
    destruct (machine_decompress_bound M _ _ _ _ _ _ _ Hbound' Hrun)
      as (strm' & Hstep & Hst & Hnext & Havail & Hout & Htot).
    rewrite (body_accepting lib peer b d _ _ _ Haccepts Hstep Herr).
    cbn [avail_out set_avail_out] in Hout.
    cbn [bz_state machine_lib] in *. rewrite Hout.
    destruct out as [|x out].
    + cbn [length N.of_nat]. rewrite N.sub_0_r, N.leb_refl.
      unfold decoded. cbn. repeat split; auto.
      exists []. reflexivity.
    + assert (Hlen : N.of_nat (length (x :: out)) <= buffer_size b)
        by (subst cap; lia).
      assert (Hpos : 0 < N.of_nat (length (x :: out))) by (cbn; lia).
      replace (buffer_size b <=? buffer_size b - N.of_nat (length (x :: out)))
        with false by (symmetry; apply N.leb_gt; lia).
      rewrite sub32_exact by lia.
      replace (buffer_size b - (buffer_size b - N.of_nat (length (x :: out))))
        with (N.of_nat (length (x :: out))) by lia.
      set (b' := with_offset lib _ _).
      set (d' := snd (gst_pad_push peer _ _)).
      assert (Hpieces : pieces (length (x :: out)) cap (x :: out) = [x :: out]).
      { cbn [length pieces]. rewrite firstn_all2 by exact Hfit.
        rewrite skipn_all2 by exact Hfit. rewrite pieces_nil. reflexivity. }
      destruct h; [| |congruence].
      * (* starved: one more step finds nothing *)
        change (code_of Starved) with BZ_OK.
        destruct (runs_starved_inv M _ _ _ _ _ Hruns) as (-> & s' & -> & Hidle).
        assert (Hb' : bound_to (stream b') s' []) by (repeat split; assumption).
        assert (Hsize' : 0 < buffer_size b' < 2 ^ 32) by exact Hsize.
        rewrite Hpieces in Hfuel. cbn [length] in Hfuel.
        destruct (IH 0%nat ltac:(cbn in *; lia) [] eq_refl s' [] _ _ _ b' d' fuel
                    Hidle Hh Hb' Hsize' ltac:(cbn; lia))
          as (Hf & Hd & Hs & (l & Hc) & Hbs & Hr & Hq).
        unfold decoded. cbn [before flow log element].
        rewrite handed_app, codes_app, map_app, Hd, Hc. fold cap.
        rewrite Hpieces. cbn. repeat split; auto.
        exists (BZ_OK :: l). reflexivity.
      * (* end of stream: the loop is left *)
        change (code_of Ended) with BZ_STREAM_END. rewrite loop_stream_end.
        unfold decoded. cbn [before flow log element]. fold cap.
        rewrite Hpieces. cbn. repeat split; auto.
        exists []. reflexivity.
  - (* the buffer is filled and the loop goes round *)
    destruct (bz_run_part M _ _ _ _ _ _ Hruns cap Hbig)
      as (s1 & rest1 & Hrun & Hruns').
    destruct (machine_decompress_bound M _ _ _ _ _ _ _ Hbound' Hrun)
      as (strm' & Hstep & Hst & Hnext & Havail & Hout & Htot).
    rewrite (body_accepting lib peer b d _ _ _ Haccepts Hstep eq_refl).
    cbn [avail_out set_avail_out] in Hout.
    cbn [bz_state machine_lib] in *. rewrite Hout.
    assert (Hcap : (0 < cap)%nat) by (subst cap; lia).
    rewrite length_firstn, Nat.min_l by lia.
    replace (N.of_nat cap) with (buffer_size b) by (subst cap; lia).
    rewrite N.sub_diag.
    replace (buffer_size b <=? 0) with false by (symmetry; apply N.leb_gt; lia).
    rewrite sub32_exact by lia. rewrite N.sub_0_r.
    set (b' := with_offset lib _ _).
    set (d' := snd (gst_pad_push peer _ _)).
    assert (Hb' : bound_to (stream b') s1 rest1) by (repeat split; assumption).
    assert (Hsize' : 0 < buffer_size b' < 2 ^ 32) by exact Hsize.
    assert (Hless : (length (skipn cap out) < length out)%nat)
      by (rewrite length_skipn; lia).
    assert (Hpieces : pieces (length out) cap out
                      = firstn cap out :: pieces (length (skipn cap out)) cap
                                            (skipn cap out)).
    { destruct out as [|x out]; [cbn in Hbig; lia|].
      cbn [length pieces]. f_equal.
      apply pieces_enough; [exact Hcap|]. cbn [length] in Hless. lia. }
    rewrite Hpieces in Hfuel. cbn [length] in Hfuel.
    destruct (IH _ ltac:(subst n; exact Hless) _ eq_refl _ _ _ _ _ b' d' fuel
                Hruns' Hh Hb' Hsize' ltac:(change (buffer_size b') with (buffer_size b); fold cap; lia))
      as (Hf & Hd & Hs & (l & Hc) & Hbs & Hr & Hq).
    unfold decoded. cbn [before flow log element].
    rewrite handed_app, codes_app, map_app, Hd, Hc. fold cap.
    change (buffer_size b') with (buffer_size b). fold cap.
    repeat split; auto.
    + cbn [handed app]. constructor; [|exact Hs].
      cbn. rewrite length_firstn, Nat.min_l by lia. subst cap. lia.
    + exists (BZ_OK :: l). reflexivity.
Qed.

Lemma pieces_length cap : forall n l, (length (pieces n cap l) <= n)%nat.
Proof.
  induction n as [|n IH]; intros l; [cbn; lia|].
  destruct l; cbn [pieces length]; [lia|].
  specialize (IH (skipn cap (b :: l))). lia.
Qed.

(** One call on a whole input buffer. *)
Lemma chain_runs (s : mstate M) bytes out q rest h (b : GstBz2dec lib) d fuel :
  runs s bytes out q rest h ->
  h <> Broken ->
  ready b = true ->
  state (stream b) = Some (Running s) ->
  0 < buffer_size b < 2 ^ 32 ->
  (length (pieces (length out) (N.to_nat (buffer_size b)) out) < fuel)%nat ->
  decoded b out q h (gst_bz2dec_chain lib peer fuel b d (input_buffer bytes)) /\
  payload (log (gst_bz2dec_chain lib peer fuel b d (input_buffer bytes))) = out.
Proof.
  intros Hruns Hh Hready Hstate Hsize Hfuel.
  assert (H : decoded b out q h
                (gst_bz2dec_chain lib peer fuel b d (input_buffer bytes))).
  { unfold gst_bz2dec_chain. rewrite Hready. cbn [negb].
    set (b' := with_stream lib b _).
    apply (loop_runs (length out) out eq_refl s bytes q rest h b' d fuel);
      try assumption.
    repeat split. exact Hstate. }
  split; [exact H|].
  destruct H as (_ & Hd & _). unfold payload. rewrite Hd.
  apply concat_pieces; lia.
Qed.

Lemma last_concat (l : list (list byte)) : last l [] <> [] -> concat l <> [].
Proof.
  induction l as [|c l IH]; cbn [last concat]; [congruence|].
  destruct l as [|c' l].
  - rewrite app_nil_r. auto.
  - intros H E. apply app_eq_nil in E as [_ E]. exact (IH H E).
Qed.

(** A call on a session that has reached the end of its stream: the step
    is refused, nothing is pushed and the session is started afresh. *)
Lemma chain_idle (b : GstBz2dec lib) d fuel inb :
  ready b = true ->
  state (stream b) = Some Idle ->
  let o := gst_bz2dec_chain lib peer (S fuel) b d inb in
  payload (log o) = [] /\
  ready (element o) = true /\
  state (stream (element o)) = Some (Running (start M)) /\
  buffer_size (element o) = buffer_size b.
Proof.
  intros Hready Hstate. unfold gst_bz2dec_chain. rewrite Hready.
  cbn [negb chain_loop]. change (BZ_OK =? BZ_STREAM_END)%Z with false. cbn iota.
  unfold chain_body.
  destruct Haccepts as [Halloc _].
  match goal with |- context [gst_pad_alloc_buffer peer d ?o ?n] =>
    specialize (Halloc d o n);
    destruct (gst_pad_alloc_buffer peer d o n) as [fr d1] end.
  cbn in Halloc. subst fr. cbn [flow_is_ok negb GST_BUFFER_SIZE].
  cbn [BZ2_bzDecompress machine_lib]. unfold machine_decompress.
  cbn [state set_avail_out set_input stream with_stream].
  rewrite Hstate. cbn -[gst_bz2dec_decompress_init].
  unfold gst_bz2dec_decompress_init. rewrite decompress_end_eq.
  cbn. rewrite Hready. cbn. auto.
Qed.

(** Empty buffers fed to a fresh session of a decoder that reads first. *)
Lemma feed_fresh_empties : forall cs (b : GstBz2dec lib) d fuel,
  reads_first M ->
  Forall (fun c => c = []) cs ->
  ready b = true ->
  state (stream b) = Some (Running (start M)) ->
  0 < buffer_size b < 2 ^ 32 ->
  (0 < fuel)%nat ->
  fed_payload (feed lib peer fuel b d (map input_buffer cs)) = [].
Proof.
  induction cs as [|c cs IH]; intros b d fuel Hfirst Hall Hready Hstate Hsize Hfuel;
    [reflexivity|].
  apply Forall_cons_iff in Hall as [-> Hall].
  destruct Hfirst as [k Hk].
  assert (Hruns : runs (start M) [] [] (Running (start M)) [] Starved)
    by (eapply runs_starved; exact Hk).
  destruct (chain_runs (start M) [] [] _ [] Starved b d fuel Hruns
              ltac:(discriminate) Hready Hstate Hsize ltac:(cbn; lia))
    as ((_ & _ & _ & _ & Hbs & Hr & Hq) & Hp).
  cbn [map feed]. rewrite fed_payload_cons, Hp.
  apply IH; try assumption.
  - exists k. exact Hk.
  - congruence.
  - rewrite Hbs. exact Hsize.
Qed.

(** Empty buffers fed after the end of the stream. *)
Lemma feed_after_end cs (b : GstBz2dec lib) d fuel :
  cs = [] \/ reads_first M ->
  Forall (fun c => c = []) cs ->
  ready b = true ->
  state (stream b) = Some Idle ->
  0 < buffer_size b < 2 ^ 32 ->
  (0 < fuel)%nat ->
  fed_payload (feed lib peer fuel b d (map input_buffer cs)) = [].
Proof.
  intros Hcs Hall Hready Hstate Hsize Hfuel.
  destruct cs as [|c cs]; [reflexivity|].
  destruct Hcs as [Hcs | Hfirst]; [discriminate|].
  apply Forall_cons_iff in Hall as [-> Hall].
  destruct fuel as [|fuel]; [lia|].
  destruct (chain_idle b d fuel (input_buffer []) Hready Hstate)
    as (Hp & Hr & Hq & Hbs).
  cbn [map feed]. rewrite fed_payload_cons, Hp.
  apply feed_fresh_empties; try assumption.
  rewrite Hbs. exact Hsize.
Qed.

Lemma concat_empties (cs : list (list byte)) :
  concat cs = [] -> Forall (fun c => c = []) cs.
Proof.
  induction cs as [|c cs IH]; cbn [concat]; intros H; constructor;
    apply app_eq_nil in H as [H1 H2]; auto.
Qed.

Lemma last_of_empties (cs : list (list byte)) :
  Forall (fun c => c = []) cs -> last cs [] = [].
Proof.
  induction 1 as [|c cs Hc _ IH]; [reflexivity|].
  cbn [last]. destruct cs; [exact Hc | exact IH].
Qed.

Lemma last_empties (c : list byte) cs :
  Forall (fun c => c = []) cs -> last (c :: cs) [] <> [] -> cs = [].
Proof.
  intros Hall Hlast. destruct cs as [|c' cs]; [reflexivity|].
  exfalso. apply Hlast. cbn [last]. apply (last_of_empties _ Hall).
Qed.

(** A stream fed in pieces. *)
Lemma feed_runs : forall chunks (s : mstate M) out (b : GstBz2dec lib) d fuel,
  runs s (concat chunks) out Idle [] Ended ->
  concat chunks <> [] ->
  last chunks [] <> [] \/ reads_first M ->
  ready b = true ->
  state (stream b) = Some (Running s) ->
  0 < buffer_size b < 2 ^ 32 ->
  (length out < fuel)%nat ->
  fed_payload (feed lib peer fuel b d (map input_buffer chunks)) = out /\
  (last chunks [] <> [] ->
   Forall (fun o => flow o = Some GST_FLOW_OK)
     (feed lib peer fuel b d (map input_buffer chunks))).
Proof.
  induction chunks as [|c chunks IH];
    intros s out b d fuel Hruns Hne Hlast Hready Hstate Hsize Hfuel.
  - cbn in Hne. congruence.
  - cbn [map feed]. rewrite fed_payload_cons.
    destruct (list_eq_dec Byte.byte_eq_dec (concat chunks) []) as [Hnil | Hrest].
    + (* the stream ends in this buffer; the others are empty *)
      cbn [concat] in Hruns. rewrite Hnil, app_nil_r in Hruns.
      pose proof (pieces_length (N.to_nat (buffer_size b)) (length out) out).
      destruct (chain_runs s c out Idle [] Ended b d fuel Hruns
                  ltac:(discriminate) Hready Hstate Hsize ltac:(lia))
        as ((Hf & _ & _ & _ & Hbs & Hr & Hq) & Hp).
      set (o := gst_bz2dec_chain lib peer fuel b d (input_buffer c)) in *.
      pose proof (concat_empties _ Hnil) as Hall.
      assert (Hcs : chunks = [] \/ reads_first M).
      { destruct Hlast as [Hlast | Hfirst]; [left | right; exact Hfirst].
        eapply last_empties; eassumption. }
      rewrite Hp.
      rewrite (feed_after_end chunks (element o) (downstream o) fuel Hcs Hall
                 ltac:(congruence) Hq ltac:(rewrite Hbs; exact Hsize) ltac:(lia)).
      split; [apply app_nil_r|].
      intros Hl. rewrite (last_empties c chunks Hall Hl).
      cbn. constructor; [exact Hf | constructor].
    + (* the stream goes on in the buffers that follow *)
      destruct (runs_split M s _ out Idle Hruns c (concat chunks) eq_refl Hrest)
        as (o1 & o2 & s1 & H1 & H2 & ->).
      rewrite length_app in Hfuel.
      pose proof (pieces_length (N.to_nat (buffer_size b)) (length o1) o1).
      destruct (chain_runs s c o1 (Running s1) [] Starved b d fuel H1
                  ltac:(discriminate) Hready Hstate Hsize ltac:(lia))
        as ((Hf & _ & _ & _ & Hbs & Hr & Hq) & Hp).
      set (o := gst_bz2dec_chain lib peer fuel b d (input_buffer c)) in *.
      assert (Hlast' : last chunks [] <> [] \/ reads_first M).
      { destruct Hlast as [Hlast | Hfirst]; [left | right; exact Hfirst].
        destruct chunks; [cbn in Hrest; congruence | exact Hlast]. }
      destruct (IH s1 o2 (element o) (downstream o) fuel H2 Hrest Hlast'
                  ltac:(congruence) Hq ltac:(rewrite Hbs; exact Hsize) ltac:(lia))
        as (IHp & IHf).
      split.
      * rewrite Hp. f_equal. exact IHp.
      * intros Hl. constructor; [exact Hf|]. apply IHf.
        destruct chunks; [cbn in Hrest; congruence | exact Hl].
Qed.

(** A decoder that reads first has no empty stream. *)
Lemma reads_first_nonempty bytes out :
  reads_first M -> decompresses_to M bytes out -> bytes <> [].
Proof.
  intros [k Hk] Hdec ->. unfold decompresses_to in Hdec.
  inversion Hdec; subst; congruence.
Qed.

End Decoding.

(** C1. A complete stream, cut at any byte boundaries into input buffers
    and fed buffer by buffer to a new element whose peer accepts everything,
    yields the same bytes as the stream fed as one buffer: the decompressed
    stream.  Buffers may be empty; when the last one is, so that a call
    comes after the end of the stream, the decoder is one that reads before
    it stores.  When the last buffer is not empty every call returns
    [GST_FLOW_OK]. *)
Theorem chunking_invariance (M : machine) (peer : pad_peer)
  (bytes out : list byte) (chunks : list (list byte)) (size : N)
  (d : peer_state peer) (fuel : nat) :
  accepts peer ->
  decompresses_to M bytes out ->
  concat chunks = bytes ->
  last chunks [] <> [] \/ reads_first M ->
  0 < size < 2 ^ 32 ->
  (length out < fuel)%nat ->
  let b := new_element (machine_lib M) size in
  fed_payload (feed (machine_lib M) peer fuel b d (map input_buffer chunks))
  = fed_payload (feed (machine_lib M) peer fuel b d [input_buffer bytes]) /\
  fed_payload (feed (machine_lib M) peer fuel b d (map input_buffer chunks)) = out /\
  (last chunks [] <> [] ->
   Forall (fun o => flow o = Some GST_FLOW_OK)
     (feed (machine_lib M) peer fuel b d (map input_buffer chunks))).
Proof.
  intros Hacc Hdec Hcat Hlast Hsize Hfuel b.
  assert (Hready : ready b = true) by reflexivity.
  assert (Hstate : state (stream b) = Some (Running (start M))) by reflexivity.
  assert (Hbs : 0 < buffer_size b < 2 ^ 32) by exact Hsize.
  assert (Hne : concat chunks <> []).
  { destruct Hlast as [Hlast | Hfirst].
    - apply last_concat. exact Hlast.
    - rewrite Hcat. eapply reads_first_nonempty; eassumption. }
  unfold decompresses_to in Hdec.
  destruct (feed_runs M peer Hacc chunks (start M) out b d fuel
              ltac:(rewrite Hcat; exact Hdec) Hne Hlast Hready Hstate Hbs Hfuel)
    as (Hp & Hf).
  pose proof (pieces_length (N.to_nat (buffer_size b)) (length out) out).
  destruct (chain_runs M peer Hacc (start M) bytes out Idle [] Ended b d fuel Hdec
              ltac:(discriminate) Hready Hstate Hbs ltac:(lia)) as (_ & Hone).
  repeat split; [|exact Hp|exact Hf].
  rewrite Hp. unfold fed_payload. cbn [feed map concat].
  rewrite Hone, app_nil_r. reflexivity.
Qed.

(** C7. With [buffer_size] 16, one input buffer holding a complete stream
    that decompresses to 40 bytes makes a new element push exactly three
    buffers, of 16, 16 and 8 bytes at offsets 0, 16 and 32, holding the 40
    bytes in order; the last step returns [BZ_STREAM_END] and the call
    returns [GST_FLOW_OK]. *)
Theorem forty_bytes_in_three_buffers (M : machine) (peer : pad_peer)
  (bytes out : list byte) (d : peer_state peer) (fuel : nat) :
  accepts peer ->
  decompresses_to M bytes out ->
  length out = 40%nat ->
  (3 < fuel)%nat ->
  let o := gst_bz2dec_chain (machine_lib M) peer fuel
             (new_element (machine_lib M) 16) d (input_buffer bytes) in
  flow o = Some GST_FLOW_OK /\
  handed (log o)
  = [mkBuffer (firstn 16 out) 16 0;
     mkBuffer (firstn 16 (skipn 16 out)) 16 16;
     mkBuffer (skipn 32 out) 8 32] /\
  exists l, codes (log o) = l ++ [BZ_STREAM_END].
Proof.
  intros Hacc Hdec Hlen Hfuel.
  set (b := new_element (machine_lib M) 16).
  assert (Hpieces : pieces (length out) (N.to_nat (buffer_size b)) out
                    = [firstn 16 out; firstn 16 (skipn 16 out); skipn 32 out]).
  { do 40 (destruct out as [|? out]; [discriminate|]).
    destruct out; [reflexivity | discriminate]. }
  destruct (chain_runs M peer Hacc (start M) bytes out Idle [] Ended b d fuel Hdec
              ltac:(discriminate) eq_refl eq_refl ltac:(cbn; lia)
              ltac:(rewrite Hpieces; exact Hfuel))
    as ((Hf & Hd & Hs & Hc & _) & _).
  destruct (chain_stamps (machine_lib M) peer
              (machine_counts_output M) fuel b d (input_buffer bytes) 0
              ltac:(cbn; lia) eq_refl) as (Hst & _).
  cbn zeta. split; [exact Hf|]. split; [|exact Hc].
  rewrite Hpieces in Hd.
  assert (L1 : N.of_nat (length (firstn 16 out)) = 16)
    by (rewrite length_firstn, Hlen; reflexivity).
  assert (L2 : N.of_nat (length (firstn 16 (skipn 16 out))) = 16)
    by (rewrite length_firstn, length_skipn, Hlen; reflexivity).
  assert (L3 : N.of_nat (length (skipn 32 out)) = 8)
    by (rewrite length_skipn, Hlen; reflexivity).
  revert Hd L1 L2 L3.
  generalize (firstn 16 out) (firstn 16 (skipn 16 out)) (skipn 32 out).
  intros p1 p2 p3 Hd L1 L2 L3.
  destruct (handed (log _)) as [|[w1 n1 o1] [|[w2 n2 o2] [|[w3 n3 o3] [|? ?]]]];
    try discriminate.
  cbn [map GST_BUFFER_DATA] in Hd. injection Hd as Hw1 Hw2 Hw3.
  subst w1 w2 w3.
  apply Forall_cons_iff in Hs as [H1 Hs].
  apply Forall_cons_iff in Hs as [H2 Hs].
  apply Forall_cons_iff in Hs as [H3 _].
  cbn [GST_BUFFER_SIZE GST_BUFFER_DATA] in H1, H2, H3.
  cbn [stamped_from GST_BUFFER_SIZE GST_BUFFER_OFFSET] in Hst.
  destruct Hst as (E1 & E2 & E3 & _).
  rewrite L1 in H1. rewrite L2 in H2. rewrite L3 in H3. subst n1 n2 n3.
  cbn in E1, E2, E3. subst o1 o2 o3.
  reflexivity.
Qed.

(** ** The decoders and peers *)

Lemma sink_accepts : accepts sink.
Proof. split; intros; reflexivity. Qed.

(** A call that returns [BZ_STREAM_END] is a run to the end of the stream. *)
Lemma bz_run_ended (M : machine) inp : forall cap (s : mstate M) q rest out,
  bz_run M inp cap s = (BZ_STREAM_END, q, rest, out) ->
  runs s inp out q rest Ended.
Proof.
  induction inp as [|x inp IHinp]; induction cap as [|cap IHcap];
    intros s q rest out; rewrite bz_run_eq;
    destruct (next M s) as [k | y s' | | ] eqn:E; intros H;
    try discriminate;
    try (inversion H; subst; eapply runs_finish; eassumption).
  - destruct (bz_run M [] cap s') as [[[r' q'] rest'] out'] eqn:E'.
    inversion H; subst. eapply runs_emit; [eassumption|]. apply IHcap, E'.
  - eapply runs_read; [eassumption|]. apply IHinp in H. exact H.
  - eapply runs_read; [eassumption|]. apply IHinp in H. exact H.
  - destruct (bz_run M (x :: inp) cap s') as [[[r' q'] rest'] out'] eqn:E'.
    inversion H; subst. eapply runs_emit; [eassumption|]. apply IHcap, E'.
Qed.

Lemma forty_decompresses : decompresses_to rle forty_compressed forty.
Proof. apply (bz_run_ended rle forty_compressed 40). reflexivity. Qed.

(** *** The run-length decoder produces a bounded output *)

Lemma rle_todo_bad inp : rle_todo inp RBad = O.
Proof. destruct inp; reflexivity. Qed.

Lemma rle_run_todo inp : forall cap s r q rest out,
  bz_run rle inp cap s = (r, q, rest, out) ->
  (length out + rle_left q rest = rle_todo inp s)%nat.
Proof.
  induction inp as [|x inp IHinp]; induction cap as [|cap IHcap];
    intros s r q rest out; rewrite bz_run_eq;
    destruct s as [| | n | [|n] y | |]; cbn [next rle rle_next]; intros H;
    try (inversion H; subst; cbn; lia);
    try (apply IHinp in H; rewrite H; cbn [rle_todo];
         try destruct (Byte.eqb x "Z"%byte); rewrite ?rle_todo_bad; reflexivity).
  - destruct (bz_run rle [] cap (RRun n y)) as [[[r' q'] rest'] out'] eqn:E'.
    inversion H; subst. apply IHcap in E'. cbn [length rle_todo] in *. lia.
  - destruct (bz_run rle (x :: inp) cap (RRun n y)) as [[[r' q'] rest'] out'] eqn:E'.
    inversion H; subst. apply IHcap in E'. cbn [length rle_todo] in *. lia.
Qed.

Lemma rle_bounded : output_bounded_by (machine_lib rle) rle_mu.
Proof.
  unfold output_bounded_by. cbn [bz_state BZ2_bzDecompress machine_lib].
  intros strm c r strm' w. unfold machine_decompress, rle_mu.
  cbn [state next_in avail_in avail_out set_avail_out].
  destruct (state strm) as [[s|]|].
  - set (inp := firstn (N.to_nat (avail_in strm)) (next_in strm)).
    destruct (bz_run rle inp (N.to_nat c) s) as [[[r' q] rest] out] eqn:Hrun.
    intros H Hout. inversion H; subst. cbn [state next_in avail_in avail_out] in *.
    pose proof (rle_run_todo _ _ _ _ _ _ _ Hrun) as Htodo.
    destruct (bz_run_shape rle _ _ _ _ _ _ _ Hrun) as [[pre Hpre] _].
    assert (Hrest : firstn
              (N.to_nat (avail_in strm - N.of_nat (length inp - length rest)))
              (skipn (length inp - length rest) (next_in strm)) = rest).
    { rewrite N2Nat.inj_sub, Nat2N.id, <- skipn_firstn_comm. fold inp.
      rewrite Hpre, length_app.
      replace (length pre + length rest - length rest)%nat with (length pre) by lia.
      rewrite skipn_app, skipn_all, Nat.sub_diag. reflexivity. }
    destruct q as [s'|].
    + rewrite Hrest. cbn [rle_left] in Htodo. lia.
    + cbn [rle_left] in Htodo. lia.
  - intros H Hout. inversion H; subst. cbn in Hout. lia.
  - intros H Hout. inversion H; subst. cbn in Hout. lia.
Qed.

(** *** The decoder that never stops *)

Lemma spin_run : forall cap inp,
  bz_run spin inp cap tt = (BZ_OK, @Running spin tt, inp, repeat x00 cap).
Proof.
  induction cap as [|cap IH]; intros inp; rewrite bz_run_eq; cbn [next spin].
  - reflexivity.
  - rewrite IH. reflexivity.
Qed.

Lemma spin_makes_progress : makes_progress (machine_lib spin).
Proof.
  unfold makes_progress. cbn [bz_state BZ2_bzDecompress machine_lib].
  intros strm r strm' w. unfold machine_decompress.
  destruct (state strm) as [[[]|]|]; try (intros H; inversion H; discriminate).
  rewrite spin_run. intros H _ Hroom. inversion H; subst.
  right. cbn [avail_out]. rewrite repeat_length. lia.
Qed.

Lemma spin_loop fuel : forall (b : GstBz2dec (machine_lib spin)) d,
  state (stream b) = Some (@Running spin tt) ->
  0 < buffer_size b ->
  flow (chain_loop (machine_lib spin) sink fuel b d BZ_OK) = None.
Proof.
  induction fuel as [|fuel IH]; intros b d Hstate Hsize; [reflexivity|].
  cbn [chain_loop]. change (BZ_OK =? BZ_STREAM_END)%Z with false. cbn iota.
  destruct (BZ2_bzDecompress (machine_lib spin)
              (set_avail_out (stream b) (buffer_size b)))
    as [[r s] w] eqn:Hstep.
  assert (H : r = BZ_OK /\ state s = Some (@Running spin tt) /\ avail_out s = 0).
  { revert Hstep. cbn [bz_state BZ2_bzDecompress machine_lib].
    unfold machine_decompress. cbn [state set_avail_out avail_out].
    change (@state (run_state spin) (stream b) = Some (@Running spin tt))
      in Hstate.
    rewrite Hstate, spin_run. intros H. inversion H; subst.
    cbn [state avail_out]. rewrite repeat_length. repeat split. lia. }
  destruct H as (-> & Hs & Hout).
  rewrite (body_accepting _ _ b d _ _ _ sink_accepts Hstep eq_refl).
  rewrite Hout.
  replace (buffer_size b <=? 0) with false by (symmetry; apply N.leb_gt; lia).
  cbn [before flow]. apply IH; [exact Hs | exact Hsize].
Qed.

(** C9, as stated, fails: every step of this decoder stores output, and the
    loop never ends, whatever the budget. *)
Lemma spin_never_returns :
  makes_progress (machine_lib spin) /\
  forall fuel,
    flow (gst_bz2dec_chain (machine_lib spin) sink fuel
            (new_element (machine_lib spin) 16) 0%nat
            (input_buffer ["a"%byte]))
    = None.
Proof.
  split; [exact spin_makes_progress|].
  intros fuel. unfold gst_bz2dec_chain. cbn [ready new_element negb].
  apply spin_loop; [reflexivity | cbn; lia].
Qed.

(** *** Runs of zeros *)

Lemma zrun_step_room inp : forall pending cap r q rest m,
  zrun_step inp pending cap = (r, q, rest, m) -> m <= cap.
Proof.
  induction inp as [|x inp IH]; intros pending cap r q rest m; cbn [zrun_step];
    destruct (N.min pending cap <? pending) eqn:E; intros H;
    try (inversion H; subst; lia).
  destruct (Byte.to_N x =? 0); [inversion H; subst; lia|].
  destruct (zrun_step inp (2 ^ Byte.to_N x) (cap - N.min pending cap))
    as [[[r' q'] rest'] m'] eqn:E'.
  inversion H; subst. apply IH in E'. lia.
Qed.

Lemma zrun_counts_output : counts_output zrun_lib.
Proof.
  unfold counts_output. cbn [bz_state BZ2_bzDecompress zrun_lib].
  intros strm r strm' w. unfold zrun_decompress.
  destruct (state strm) as [[p|]|].
  - match goal with |- context [zrun_step ?i p ?c] =>
      destruct (zrun_step i p c) as [[[r' q] rest] m] eqn:Hrun end.
    intros H Hwf. inversion H; subst. cbn.
    apply zrun_step_room in Hrun.
    split; [lia|]. unfold count_lo. f_equal. lia.
  - intros H Hwf. inversion H; subst.
    split; [lia|]. rewrite N.sub_diag, N.add_0_r, wrap32_small; auto.
  - intros H Hwf. inversion H; subst.
    split; [lia|]. rewrite N.sub_diag, N.add_0_r, wrap32_small; auto.
Qed.

(** ** The element at work *)

(** C2 fails on the code.  A stream of 2^32 + 8 zero bytes, decoded into
    buffers of 2^30 bytes: the fifth buffer follows the fourth, which starts
    at 3 * 2^30, and is stamped with offset 0. *)
Theorem offsets_wrap_after_4GiB :
  let o := gst_bz2dec_chain zrun_lib sink 8
             (new_element zrun_lib (2 ^ 30)) 0%nat
             (input_buffer [x20; x03; x00]%byte) in
  flow o = Some GST_FLOW_OK /\
  offsets_and_sizes (handed (log o))
  = [(0, 2 ^ 30); (2 ^ 30, 2 ^ 30); (2 * 2 ^ 30, 2 ^ 30); (3 * 2 ^ 30, 2 ^ 30);
     (0, 8)] /\
  offset (element o) = 2 ^ 32 + 8 /\
  ~ contiguous (offsets_and_sizes (handed (log o))).
Proof.
  lazy. repeat split.
  intros (_ & _ & _ & _ & _ & _ & H & _). discriminate H.
Qed.

(** C3 fails on the code.  The peer takes one buffer and refuses the next:
    the call returns the peer's answer and leaves the session where it is,
    32 bytes into the stream, and [offset] at 16.  When it is the allocation
    of the second buffer that fails, the session is started afresh. *)
Theorem push_failure_keeps_the_session :
  let b := new_element (machine_lib rle) 16 in
  let o := gst_bz2dec_chain (machine_lib rle) flushing_after 8 b 1%nat
             (input_buffer forty_compressed) in
  let o' := gst_bz2dec_chain (machine_lib rle) dry_after 8 b 1%nat
              (input_buffer forty_compressed) in
  (flow o = Some GST_FLOW_WRONG_STATE /\
   offsets_and_sizes (handed (log o)) = [(0, 16); (16, 16)] /\
   posted (log o) = [] /\
   ready (element o) = true /\
   offset (element o) = 16 /\
   total_out_lo32 (stream (element o)) = 32 /\
   state (stream (element o)) = Some (@Running rle (RRun 8 "b"%byte))) /\
  (flow o' = Some GST_FLOW_NOT_LINKED /\
   offsets_and_sizes (handed (log o')) = [(0, 16)] /\
   ready (element o') = true /\
   offset (element o') = 0 /\
   total_out_lo32 (stream (element o')) = 0 /\
   state (stream (element o')) = Some (@Running rle RMagic)).
Proof. vm_compute. repeat split. Qed.

(** ** The theorems at work on the run-length decoder *)

Lemma chunking_invariance_on_forty :
  let chunks := [["Z"; x14]; []; ["a"; x14; "b"]; [x00]; []]%byte in
  let b := new_element (machine_lib rle) 16 in
  fed_payload (feed (machine_lib rle) sink 41 b 0%nat (map input_buffer chunks))
  = fed_payload (feed (machine_lib rle) sink 41 b 0%nat
                   [input_buffer forty_compressed]) /\
  fed_payload (feed (machine_lib rle) sink 41 b 0%nat (map input_buffer chunks))
  = forty /\
  (last chunks [] <> [] ->
   Forall (fun o => flow o = Some GST_FLOW_OK)
     (feed (machine_lib rle) sink 41 b 0%nat (map input_buffer chunks))).
Proof.
  apply (chunking_invariance rle sink forty_compressed forty
           [["Z"; x14]; []; ["a"; x14; "b"]; [x00]; []]%byte 16 0%nat 41).
  - exact sink_accepts.
  - exact forty_decompresses.
  - reflexivity.
  - right. eexists. reflexivity.
  - split; reflexivity.
  - cbn. lia.
Defined.

Lemma decode_error_on_corrupted :
  let o := gst_bz2dec_chain (machine_lib rle) sink 8
             (new_element (machine_lib rle) 16) 0%nat (input_buffer corrupted) in
  flow o = Some GST_FLOW_ERROR /\
  In (Failed_to_decompress_data BZ_DATA_ERROR) (posted (log o)) /\
  ready (element o) = true /\
  offset (element o) = 0 /\
  stream (element o) = snd (BZ2_bzDecompressInit (machine_lib rle) zero_stream).
Proof.
  apply (chain_decode_error (machine_lib rle) sink 8
           (new_element (machine_lib rle) 16) 0%nat (input_buffer corrupted)
           BZ_DATA_ERROR).
  - vm_compute. right. left. reflexivity.
  - reflexivity.
  - reflexivity.
Defined.

Lemma chain_after_teardown :
  let b := gst_bz2dec_decompress_end (machine_lib rle)
             (new_element (machine_lib rle) 16) in
  let o := gst_bz2dec_chain (machine_lib rle) sink 8 b 0%nat
             (input_buffer forty_compressed) in
  flow o = Some GST_FLOW_ERROR /\
  posted (log o) = [Decompressor_not_ready] /\
  codes (log o) = [] /\
  handed (log o) = [] /\
  element o = b /\
  downstream o = 0%nat.
Proof.
  apply (chain_not_ready (machine_lib rle) sink 8
           (gst_bz2dec_decompress_end (machine_lib rle)
              (new_element (machine_lib rle) 16))
           0%nat (input_buffer forty_compressed)).
  reflexivity.
Defined.

Lemma forty_in_three_buffers_rle :
  let o := gst_bz2dec_chain (machine_lib rle) sink 4
             (new_element (machine_lib rle) 16) 0%nat
             (input_buffer forty_compressed) in
  flow o = Some GST_FLOW_OK /\
  handed (log o)
  = [mkBuffer (firstn 16 forty) 16 0;
     mkBuffer (firstn 16 (skipn 16 forty)) 16 16;
     mkBuffer (skipn 32 forty) 8 32] /\
  exists l, codes (log o) = l ++ [BZ_STREAM_END].
Proof.
  apply (forty_bytes_in_three_buffers rle sink forty_compressed forty 0%nat 4).
  - exact sink_accepts.
  - exact forty_decompresses.
  - reflexivity.
  - lia.
Defined.

Lemma offsets_of_forty :
  let o := gst_bz2dec_chain (machine_lib rle) sink 8
             (new_element (machine_lib rle) 16) 0%nat
             (input_buffer forty_compressed) in
  stamped_from 0 (handed (log o)) /\
  (flow o = Some GST_FLOW_OK ->
   total_out_lo32 (stream (element o))
   = wrap32 (0 + total_size (handed (log o)))).
Proof.
  apply (offsets_are_counts_mod_2_32 (machine_lib rle) sink
           (machine_counts_output rle) 8 (new_element (machine_lib rle) 16)
           0%nat (input_buffer forty_compressed) 0).
  - reflexivity.
  - reflexivity.
Defined.

(** The forty bytes in buffers of 16: the three steps leave 0, 0 and 8 bytes
    of room, and the buffers pushed hold 16, 16 and 8 bytes. *)
Lemma pushed_sizes_of_forty :
  let b := new_element (machine_lib rle) 16 in
  let o := gst_bz2dec_chain (machine_lib rle) sink 8 b 0%nat
             (input_buffer forty_compressed) in
  let ts := steps (machine_lib rle) 16 3
              (set_input (stream b) forty_compressed 6) in
  map GST_BUFFER_SIZE (handed (log o)) = [16; 16; 8] /\
  map (fun t => avail_out (snd (fst t))) ts = [0; 0; 8] /\
  Forall2 (cut_to (machine_lib rle) 16) (handed (log o)) ts.
Proof.
  split; [reflexivity|]. split; [reflexivity|].
  exact (proj2 (proj2 (pushed_buffers_within_buffer_size (machine_lib rle) sink 8
                         (new_element (machine_lib rle) 16) 0%nat
                         (input_buffer forty_compressed)))).
Defined.

Lemma forty_terminates :
  let b := new_element (machine_lib rle) 16 in
  let inb := input_buffer forty_compressed in
  let o := gst_bz2dec_chain (machine_lib rle) sink 41 b 0%nat inb in
  flow o <> None /\
  (length (codes (log o))
   <= S (rle_mu (set_input (stream b) (GST_BUFFER_DATA inb) (GST_BUFFER_SIZE inb))))%nat /\
  Forall (fun r => r = BZ_OK) (removelast (codes (log o))) /\
  (length (codes (log o)) <= S (length (handed (log o))))%nat /\
  Forall (fun fr => fr = GST_FLOW_OK) (removelast (answers (log o))).
Proof.
  apply (chain_terminates (machine_lib rle) sink rle_mu rle_bounded 41
           (new_element (machine_lib rle) 16) 0%nat
           (input_buffer forty_compressed)).
  vm_compute. lia.
Defined.

(** * More about the element *)


Lemma wrap64_add_l a b : wrap64 (wrap64 a + b) = wrap64 (a + b).
Proof. unfold wrap64. apply N.Div0.add_mod_idemp_l. Qed.

Lemma wrap64_small n : n < 2 ^ 64 -> wrap64 n = n.
Proof. unfold wrap64. apply N.mod_small. Qed.

Lemma is_error_cases r : is_error r = false -> r = BZ_OK \/ r = BZ_STREAM_END.
Proof.
  unfold is_error. intros H. apply andb_false_iff in H as [H | H];
    apply negb_false_iff, Z.eqb_eq in H; auto.
Qed.

Section ElementLifeCycle.

Variable lib : bzlib.
Variable peer : pad_peer.

Local Abbreviation chain := (gst_bz2dec_chain lib peer).
Local Abbreviation loop := (chain_loop lib peer).
Local Abbreviation body := (chain_body lib peer).
Local Abbreviation decompress_init := (gst_bz2dec_decompress_init lib).

Ltac body_cases b d :=
  unfold chain_body;
  destruct (gst_pad_alloc_buffer peer d (offset b) (buffer_size b))
    as [fr d1] eqn:Ealloc;
  destruct (flow_is_ok fr) eqn:Hfr; cbn [negb];
  [ cbn [GST_BUFFER_SIZE];
    destruct (BZ2_bzDecompress lib (set_avail_out (stream b) (buffer_size b)))
      as [[r1 s1] w1] eqn:Estep;
    fold (is_error r1);
    destruct (is_error r1) eqn:Herr;
    [ destruct (decompress_init (with_stream lib b s1)) as [b1 evs1] eqn:Einit
    | cbn [stream with_stream];
      destruct (buffer_size b <=? avail_out s1) eqn:Hfull;
      [ | destruct (gst_pad_push peer d1
                      (mkBuffer w1 (sub32 (buffer_size b) (avail_out s1))
                         (sub32 (total_out_lo32 s1)
                            (sub32 (buffer_size b) (avail_out s1)))))
            as [fr2 d2] eqn:Epush;
          destruct (flow_is_ok fr2) eqn:Hfr2; cbn [negb] ] ]
  | destruct (decompress_init b) as [b1 evs1] eqn:Einit ].

(** What [gst_bz2dec_decompress_init] leaves, whatever the element was. *)
Lemma decompress_init_shape (b : GstBz2dec lib) :
  let s := if ready b then zero_stream else stream b in
  let rc := fst (BZ2_bzDecompressInit lib s) in
  decompress_init b
  = (mkBz2dec (buffer_size b) (rc =? BZ_OK)%Z
       (snd (BZ2_bzDecompressInit lib s)) 0,
     if (rc =? BZ_OK)%Z then [] else [EvError Failed_to_start_decompression]).
Proof.
  unfold gst_bz2dec_decompress_init. rewrite decompress_end_eq.
  destruct (ready b); cbn;
    match goal with |- context [BZ2_bzDecompressInit lib ?s] =>
      destruct (BZ2_bzDecompressInit lib s) as [rc s'] end;
    cbn; destruct (rc =? BZ_OK)%Z; reflexivity.
Qed.

(** X1. [gst_bz2dec_init] leaves an element with the default buffer size of
    1024 bytes and offset 0.  It is ready exactly when
    [BZ2_bzDecompressInit] returned [BZ_OK]; when it did not, "Failed to
    start decompression." is posted and every buffer given to the element
    afterwards is refused with [GST_FLOW_ERROR], without a step and without
    a push. *)
Theorem init_then_chain fuel d inb :
  let b := fst (gst_bz2dec_init lib) in
  let rc := fst (BZ2_bzDecompressInit lib zero_stream) in
  buffer_size b = 1024 /\
  offset b = 0 /\
  ready b = (rc =? BZ_OK)%Z /\
  posted (snd (gst_bz2dec_init lib))
  = (if (rc =? BZ_OK)%Z then [] else [Failed_to_start_decompression]) /\
  ((rc =? BZ_OK)%Z = false ->
   flow (chain fuel b d inb) = Some GST_FLOW_ERROR /\
   log (chain fuel b d inb) = [EvError Decompressor_not_ready] /\
   element (chain fuel b d inb) = b).
Proof.
  unfold gst_bz2dec_init. rewrite decompress_init_shape. cbn [ready stream fst snd].
  destruct (fst (BZ2_bzDecompressInit lib zero_stream) =? BZ_OK)%Z eqn:E;
    cbn; repeat split; try discriminate.
Qed.

(** X2. Restarting twice is restarting once: on a ready element, when the
    restart of the session succeeds, a second [gst_bz2dec_decompress_init]
    leaves what the first one left. *)
Theorem decompress_init_idempotent (b : GstBz2dec lib) :
  ready b = true ->
  fst (BZ2_bzDecompressInit lib zero_stream) = BZ_OK ->
  decompress_init (fst (decompress_init b)) = decompress_init b.
Proof.
  intros Hready Hok. rewrite !decompress_init_shape. cbn [fst ready buffer_size].
  rewrite Hready, Hok. cbn. rewrite Hok. reflexivity.
Qed.

Lemma decompress_init_answers_of (b b1 : GstBz2dec lib) evs1 :
  decompress_init b = (b1, evs1) -> answers evs1 = [].
Proof.
  intros E. pose proof (decompress_init_answers lib b) as H.
  rewrite E in H. exact H.
Qed.

(** ** What a call keeps *)

Lemma body_keeps b d :
  match body b d with
  | Leave o =>
    buffer_size (element o) = buffer_size b /\
    (ready b = true ->
     ready (element o) = true \/
     (fst (BZ2_bzDecompressInit lib zero_stream) =? BZ_OK)%Z = false)
  | Again b' _ _ _ => buffer_size b' = buffer_size b /\ ready b' = ready b
  end.
Proof.
  body_cases b d; cbn [element buffer_size ready with_stream with_offset].
  - pose proof (decompress_init_shape (with_stream lib b s1)) as E.
    rewrite Einit in E. cbn zeta in E. inversion E; subst. cbn.
    split; [reflexivity|]. intros ->.
    destruct (fst (BZ2_bzDecompressInit lib zero_stream) =? BZ_OK)%Z; auto.
  - auto.
  - auto.
  - auto.
  - pose proof (decompress_init_shape b) as E.
    rewrite Einit in E. cbn zeta in E. inversion E; subst. cbn.
    split; [reflexivity|]. intros ->.
    destruct (fst (BZ2_bzDecompressInit lib zero_stream) =? BZ_OK)%Z; auto.
Qed.

Lemma loop_keeps fuel : forall b d r,
  buffer_size (element (loop fuel b d r)) = buffer_size b /\
  (ready b = true ->
   fst (BZ2_bzDecompressInit lib zero_stream) = BZ_OK ->
   ready (element (loop fuel b d r)) = true).
Proof.
  induction fuel as [|fuel IH]; intros b d r; cbn [chain_loop];
    destruct (r =? BZ_STREAM_END)%Z; try (cbn; auto).
  pose proof (body_keeps b d) as Hb.
  destruct (body b d) as [o | b' d' r' evs].
  - destruct Hb as [Hs Hr]. split; [exact Hs|].
    intros Hready Hok. destruct (Hr Hready) as [H | H]; [exact H|].
    rewrite Hok in H. discriminate.
  - destruct Hb as [Hs Hr]. destruct (IH b' d' r') as [IH1 IH2].
    cbn [before element]. split; [congruence|].
    intros Hready Hok. apply IH2; congruence.
Qed.

(** X3. A call never changes [buffer_size], and an element that was ready
    is ready again after the call, whatever happened in it, as long as
    [BZ2_bzDecompressInit] succeeds when the session is restarted. *)
Theorem chain_keeps_ready fuel (b : GstBz2dec lib) d inb :
  buffer_size (element (chain fuel b d inb)) = buffer_size b /\
  (ready b = true ->
   fst (BZ2_bzDecompressInit lib zero_stream) = BZ_OK ->
   ready (element (chain fuel b d inb)) = true).
Proof.
  unfold gst_bz2dec_chain. destruct (ready b) eqn:E; cbn [negb].
  - destruct (loop_keeps fuel (with_stream lib b
                (set_input (stream b) (GST_BUFFER_DATA inb) (GST_BUFFER_SIZE inb)))
                d BZ_OK) as [H1 H2].
    split; [exact H1|]. intros _ Hok. apply H2; [exact E | exact Hok].
  - cbn. split; [reflexivity | discriminate].
Qed.

(** ** The 64-bit offset *)

Lemma wrap64_lt n : wrap64 n < 2 ^ 64.
Proof. unfold wrap64. apply N.mod_lt. discriminate. Qed.

Lemma loop_offset fuel : forall b d r,
  offset b < 2 ^ 64 ->
  flow (loop fuel b d r) = Some GST_FLOW_OK ->
  offset (element (loop fuel b d r))
  = wrap64 (offset b + total_size (handed (log (loop fuel b d r)))).
Proof.
  induction fuel as [|fuel IH]; intros b d r Hrange; cbn [chain_loop];
    destruct (r =? BZ_STREAM_END)%Z;
    try (cbn; intros H; rewrite ?N.add_0_r, ?wrap64_small by exact Hrange;
         reflexivity || discriminate).
  destruct (body b d) as [o | b' d' r' evs] eqn:E.
  - revert E. body_cases b d; intros E; inversion E; subst;
      cbn [flow element log handed total_size fold_right offset with_stream];
      intros H; try (inversion H; subst; discriminate).
    rewrite N.add_0_r, wrap64_small by exact Hrange. reflexivity.
  - revert E. body_cases b d; intros E; inversion E; subst.
    intros H. cbn [before flow] in H.
    cbn [before element log].
    rewrite IH; [|cbn [offset with_offset]; apply wrap64_lt | exact H].
    rewrite handed_app, total_size_app.
    cbn [handed total_size fold_right app GST_BUFFER_SIZE offset with_offset with_stream].
    rewrite wrap64_add_l. f_equal. lia.
Qed.

(** X4. When a call returns [GST_FLOW_OK], the 64-bit [offset] of the
    element has advanced by the sizes of the buffers pushed, modulo 2^64. *)
Theorem chain_advances_offset fuel (b : GstBz2dec lib) d inb :
  offset b < 2 ^ 64 ->
  flow (chain fuel b d inb) = Some GST_FLOW_OK ->
  offset (element (chain fuel b d inb))
  = wrap64 (offset b + total_size (handed (log (chain fuel b d inb)))).
Proof.
  intros Hrange. unfold gst_bz2dec_chain. destruct (ready b); cbn [negb].
  - apply (loop_offset fuel (with_stream lib b _) d BZ_OK). exact Hrange.
  - cbn. discriminate.
Qed.

(** ** A refused push *)




(** ** A refused allocation *)

Lemma loop_no_buffer fuel : forall b d r ans,
  ready b = true ->
  flow (loop fuel b d r) = Some ans ->
  flow_is_ok ans = false ->
  Forall (fun a => flow_is_ok a = true) (answers (log (loop fuel b d r))) ->
  Forall (fun c => is_error c = false) (codes (log (loop fuel b d r))) ->
  element (loop fuel b d r) = restarted lib (buffer_size b) /\
  posted (log (loop fuel b d r))
  = posted (snd (decompress_init (mkBz2dec (buffer_size b) true zero_stream 0))).
Proof.
  induction fuel as [|fuel IH]; intros b d r ans Hready; cbn [chain_loop];
    destruct (r =? BZ_STREAM_END)%Z;
    try (cbn; intros H; inversion H; subst; discriminate).
  destruct (body b d) as [o | b' d' r' evs] eqn:E.
  - revert E. body_cases b d; intros E; inversion E; subst;
      cbn [flow element log answers codes posted]; intros H Hno Ha Hc.
    + apply Forall_inv in Hc. congruence.
    + inversion H; subst. discriminate.
    + apply Forall_inv in Ha. inversion H; subst. congruence.
    + pose proof (decompress_init_shape b) as Es. rewrite Einit, Hready in Es.
      cbn zeta in Es. inversion Es; subst.
      rewrite decompress_init_shape. cbn [ready]. split; reflexivity.
  - revert E. body_cases b d; intros E; inversion E; subst.
    cbn [before log flow element]. rewrite answers_app, codes_app, posted_app.
    cbn [answers codes posted app]. intros H Hno Ha Hc.
    apply Forall_inv_tail in Ha. apply Forall_inv_tail in Hc.
    refine (IH _ _ _ ans _ H Hno Ha Hc). exact Hready.
Qed.

(** X6. A call that fails although every step succeeded and every push was
    accepted has been refused a buffer by [gst_pad_alloc_buffer]: it
    leaves the element restarted, at offset 0 on the session that
    [BZ2_bzDecompressInit] made of the zeroed one, and posts an error only
    if that restart failed. *)
Theorem chain_refused_buffer fuel (b : GstBz2dec lib) d inb fr :
  ready b = true ->
  flow (chain fuel b d inb) = Some fr ->
  flow_is_ok fr = false ->
  Forall (fun a => flow_is_ok a = true) (answers (log (chain fuel b d inb))) ->
  Forall (fun c => is_error c = false) (codes (log (chain fuel b d inb))) ->
  let o := chain fuel b d inb in
  element o = restarted lib (buffer_size b) /\
  offset (element o) = 0 /\
  posted (log o)
  = (if (fst (BZ2_bzDecompressInit lib zero_stream) =? BZ_OK)%Z
     then [] else [Failed_to_start_decompression]).
Proof.
  intros Hready. unfold gst_bz2dec_chain. rewrite Hready. cbn [negb].
  intros H Hno Ha Hc.
  destruct (loop_no_buffer fuel (with_stream lib b _) d BZ_OK fr Hready H Hno Ha Hc)
    as (He & Hp).
  cbn zeta. rewrite He, Hp. rewrite decompress_init_shape. cbn.
  repeat split.
  destruct (fst (BZ2_bzDecompressInit lib zero_stream) =? BZ_OK)%Z; reflexivity.
Qed.

(** ** A failed step *)

Lemma loop_drops_failed_step fuel : forall b d r0 r,
  In r (codes (log (loop fuel b d r0))) ->
  is_error r = true ->
  S (length (handed (log (loop fuel b d r0))))
  = length (codes (log (loop fuel b d r0))) /\
  Forall (fun a => a = GST_FLOW_OK) (answers (log (loop fuel b d r0))).
Proof.
  induction fuel as [|fuel IH]; intros b d r0 r; cbn [chain_loop];
    destruct (r0 =? BZ_STREAM_END)%Z; try (cbn; intros []).
  destruct (body b d) as [o | b' d' r' evs] eqn:E.
  - revert E. body_cases b d; intros E; inversion E; subst;
      cbn [log codes handed answers]; intros Hin Herr'.
    + rewrite (decompress_init_answers_of _ _ _ Einit).
      pose proof (decompress_init_log lib (with_stream lib b s1)) as [E1 E2].
      rewrite Einit in E1, E2. cbn in E1, E2. rewrite E1, E2. cbn. auto.
    + destruct Hin as [<- | []]. congruence.
    + destruct Hin as [<- | []]. congruence.
    + pose proof (decompress_init_log lib b) as [_ E2].
      rewrite Einit in E2. cbn in E2. rewrite E2 in Hin. destruct Hin.
  - revert E. body_cases b d; intros E; inversion E; subst.
    cbn [before log]. rewrite codes_app, handed_app, answers_app.
    cbn [codes handed answers app length].
    intros [<- | Hin] Herr'; [congruence|].
    destruct (IH _ _ _ r Hin Herr') as (Hl & Ha).
    split; [congruence|]. constructor; [|exact Ha].
    destruct fr2; try discriminate. reflexivity.
Qed.

(** X7. When a step fails, the buffer it was filling is not pushed: every
    step before it was followed by a push that the peer accepted, and
    nothing else was pushed. *)
Theorem chain_drops_failed_step fuel (b : GstBz2dec lib) d inb r :
  In r (codes (log (chain fuel b d inb))) ->
  is_error r = true ->
  let o := chain fuel b d inb in
  S (length (handed (log o))) = length (codes (log o)) /\
  Forall (fun a => a = GST_FLOW_OK) (answers (log o)).
Proof.
  unfold gst_bz2dec_chain. destruct (ready b); cbn [negb].
  - apply loop_drops_failed_step.
  - cbn. intros [].
Qed.

End ElementLifeCycle.

(** ** Offsets below 4 GiB *)

Lemma chain_trimmed lib peer fuel (b : GstBz2dec lib) d inb :
  Forall (trimmed (buffer_size b))
    (handed (log (gst_bz2dec_chain lib peer fuel b d inb))).
Proof.
  unfold gst_bz2dec_chain. destruct (ready b); cbn [negb].
  - apply (loop_trimmed lib peer fuel (with_stream lib b _)).
  - cbn. constructor.
Qed.

(** X8. While the session has stored no more than 2^32 bytes, with libbz2
    counting its output in [total_out_lo32], the buffers a call pushes are
    not empty and carry increasing offsets, each the offset of the one
    before plus its size, the first one the count at the start of the
    call. *)
Theorem offsets_contiguous_below_4GiB lib peer fuel (b : GstBz2dec lib) d inb T :
  counts_output lib ->
  buffer_size b < 2 ^ 32 ->
  total_out_lo32 (stream b) = T ->
  T + total_size (handed (log (gst_bz2dec_chain lib peer fuel b d inb))) <= 2 ^ 32 ->
  let l := handed (log (gst_bz2dec_chain lib peer fuel b d inb)) in
  Forall (fun c => 0 < GST_BUFFER_SIZE c) l /\
  contiguous (offsets_and_sizes l) /\
  (l <> [] -> GST_BUFFER_OFFSET (hd (mkBuffer [] 0 0) l) = T).
Proof.
  intros Hcounts Hsize HT Hsum. cbn zeta.
  pose proof (chain_trimmed lib peer fuel b d inb) as Htrim.
  assert (Hpos : Forall (fun c => 0 < GST_BUFFER_SIZE c)
                   (handed (log (gst_bz2dec_chain lib peer fuel b d inb)))).
  { eapply Forall_impl; [|exact Htrim].
    intros c (left & Hlt & Heq & _). rewrite Heq, sub32_exact; lia. }
  split; [exact Hpos|].
  destruct (handed (log (gst_bz2dec_chain lib peer fuel b d inb))) as [|c l] eqn:El.
  - split; [exact I | congruence].
  - assert (HT' : T < 2 ^ 32).
    { apply Forall_inv in Hpos. cbn [total_size fold_right] in Hsum. lia. }
    destruct (chain_stamps lib peer Hcounts fuel b d inb T Hsize
                ltac:(rewrite wrap32_small; assumption)) as (Hst & _).
    rewrite El in Hst. split.
    + eapply stamped_contiguous; eassumption.
    + intros _. destruct Hst as (E & _). cbn [hd].
      rewrite E. apply N.mod_small. exact HT'.
Qed.

(** ** More about the element on the model of libbz2 *)

Lemma chain_offset lib peer fuel (b : GstBz2dec lib) d inb :
  offset b < 2 ^ 64 ->
  flow (gst_bz2dec_chain lib peer fuel b d inb) = Some GST_FLOW_OK ->
  offset (element (gst_bz2dec_chain lib peer fuel b d inb))
  = wrap64 (offset b
            + total_size (handed (log (gst_bz2dec_chain lib peer fuel b d inb)))).
Proof.
  intros Hrange. unfold gst_bz2dec_chain. destruct (ready b); cbn [negb].
  - apply (loop_offset lib peer fuel (with_stream lib b _) d BZ_OK). exact Hrange.
  - cbn. discriminate.
Qed.

(** X9. An empty input buffer given to a session that waits for input is
    taken and changes nothing: one step is run, it returns [BZ_OK] and
    stores nothing, no buffer is pushed, and the element keeps its offset,
    its readiness and the state of its decoder. *)
Theorem empty_buffer_changes_nothing (M : machine) (peer : pad_peer)
  (s : mstate M) k (b : GstBz2dec (machine_lib M)) d fuel :
  accepts peer ->
  next M s = Need k ->
  ready b = true ->
  state (stream b) = Some (Running s) ->
  0 < buffer_size b < 2 ^ 32 ->
  offset b < 2 ^ 64 ->
  (0 < fuel)%nat ->
  let o := gst_bz2dec_chain (machine_lib M) peer fuel b d (input_buffer []) in
  flow o = Some GST_FLOW_OK /\
  handed (log o) = [] /\
  codes (log o) = [BZ_OK] /\
  offset (element o) = offset b /\
  ready (element o) = true /\
  buffer_size (element o) = buffer_size b /\
  state (stream (element o)) = Some (Running s).
Proof.
  intros Hacc Hk Hready Hstate Hsize Hrange Hfuel.
  assert (Hruns : runs s [] [] (Running s) [] Starved)
    by (eapply runs_starved; exact Hk).
  destruct (chain_runs M peer Hacc s [] [] _ [] Starved b d fuel Hruns
              ltac:(discriminate) Hready Hstate Hsize ltac:(cbn; lia))
    as ((Hf & Hd & _ & _ & Hbs & Hr & Hq) & _).
  cbn [length pieces] in Hd. apply map_eq_nil in Hd.
  pose proof (chain_offset _ peer fuel b d (input_buffer []) Hrange Hf) as Ho.
  cbn zeta. rewrite Hd in Ho. cbn [total_size fold_right] in Ho.
  rewrite N.add_0_r, wrap64_small in Ho by exact Hrange.
  repeat split; try assumption; try congruence.
  (* exactly one step *)
  destruct fuel as [|fuel]; [lia|].
  clear Ho Hq Hr Hbs Hf.
  revert Hd. unfold gst_bz2dec_chain. rewrite Hready. cbn [negb chain_loop].
  change (BZ_OK =? BZ_STREAM_END)%Z with false. cbn iota.
  set (b' := with_stream (machine_lib M) b _).
  assert (Hb' : bound_to (set_avail_out (stream b') (buffer_size b')) s [])
    by (repeat split; exact Hstate).
  pose proof (bz_run_all M _ _ _ _ _ _ Hruns
                (N.to_nat (buffer_size b')) ltac:(cbn; lia)) as Hrun.
  destruct (machine_decompress_bound M _ _ _ _ _ _ _ Hb' Hrun)
    as (strm' & Hstep & _ & _ & _ & Hout & _).
  rewrite (body_accepting (machine_lib M) peer b' d _ _ _ Hacc Hstep eq_refl).
  cbn [avail_out set_avail_out length N.of_nat] in Hout.
  cbn [bz_state machine_lib] in *. rewrite Hout, N.sub_0_r, N.leb_refl.
  reflexivity.
Qed.

(** X10. The size of the output buffers can be changed between two input
    buffers without harm: a complete stream given in two buffers, with
    [buffer_size] set anew in between, is pushed whole and in order, in
    buffers no larger than the size in force when they were allocated. *)
Theorem buffer_size_change_between_buffers (M : machine) (peer : pad_peer)
  (i j out : list byte) (size1 size2 : N) (d : peer_state peer) (fuel : nat) :
  accepts peer ->
  decompresses_to M (i ++ j) out ->
  j <> [] ->
  0 < size1 < 2 ^ 32 ->
  0 < size2 < 2 ^ 32 ->
  (length out < fuel)%nat ->
  let o1 := gst_bz2dec_chain (machine_lib M) peer fuel
              (new_element (machine_lib M) size1) d (input_buffer i) in
  let o2 := gst_bz2dec_chain (machine_lib M) peer fuel
              (gst_bz2dec_set_property (machine_lib M) (element o1) size2)
              (downstream o1) (input_buffer j) in
  flow o1 = Some GST_FLOW_OK /\
  flow o2 = Some GST_FLOW_OK /\
  payload (log o1) ++ payload (log o2) = out /\
  Forall (fun c => GST_BUFFER_SIZE c <= size1) (handed (log o1)) /\
  Forall (fun c => GST_BUFFER_SIZE c <= size2) (handed (log o2)).
Proof.
  intros Hacc Hdec Hj Hs1 Hs2 Hfuel.
  unfold decompresses_to in Hdec.
  destruct (runs_split M _ _ out Idle Hdec i j eq_refl Hj)
    as (out1 & out2 & s1 & H1 & H2 & ->).
  rewrite length_app in Hfuel.
  set (b := new_element (machine_lib M) size1).
  pose proof (pieces_length (N.to_nat (buffer_size b)) (length out1) out1).
  destruct (chain_runs M peer Hacc (start M) i out1 (Running s1) [] Starved b d fuel
              H1 ltac:(discriminate) eq_refl eq_refl Hs1 ltac:(lia))
    as ((Hf1 & _ & _ & _ & Hbs & Hr & Hq) & Hp1).
  set (o1 := gst_bz2dec_chain (machine_lib M) peer fuel b d (input_buffer i)) in *.
  set (b2 := gst_bz2dec_set_property (machine_lib M) (element o1) size2).
  pose proof (pieces_length (N.to_nat (buffer_size b2)) (length out2) out2).
  destruct (chain_runs M peer Hacc s1 j out2 Idle [] Ended b2 (downstream o1) fuel
              H2 ltac:(discriminate) Hr Hq Hs2 ltac:(lia))
    as ((Hf2 & _) & Hp2).
  cbn zeta. fold b o1 b2. rewrite Hp1, Hp2.
  repeat split; try assumption.
  - eapply Forall_impl; [|apply (chain_trimmed _ peer fuel b d (input_buffer i))].
    intros c (left & _ & _ & Hle). exact Hle.
  - eapply Forall_impl;
      [|apply (chain_trimmed _ peer fuel b2 (downstream o1) (input_buffer j))].
    intros c (left & _ & _ & Hle). exact Hle.
Qed.

(** ** Properties and finalization *)

(** X11. The buffer size that was set is the buffer size that is read back;
    setting it touches neither the session, nor [ready], nor the offset; and
    any other property id is answered with a warning and changes neither
    the element nor the value. *)
Theorem property_round_trip (lib : bzlib) (b : GstBz2dec lib) (id value old : N) :
  Props.gst_bz2dec_get_property
    (fst (Props.gst_bz2dec_set_property b PROP_BUFFER_SIZE value))
    PROP_BUFFER_SIZE old
  = (value, false) /\
  fst (Props.gst_bz2dec_set_property b PROP_BUFFER_SIZE value)
  = gst_bz2dec_set_property lib b value /\
  ready (gst_bz2dec_set_property lib b value) = ready b /\
  stream (gst_bz2dec_set_property lib b value) = stream b /\
  offset (gst_bz2dec_set_property lib b value) = offset b /\
  (id <> PROP_BUFFER_SIZE ->
   Props.gst_bz2dec_set_property b id value = (b, true) /\
   Props.gst_bz2dec_get_property b id old = (old, true)).
Proof.
  repeat split.
  - unfold Props.gst_bz2dec_set_property. apply N.eqb_neq in H. rewrite H.
    reflexivity.
  - unfold Props.gst_bz2dec_get_property. apply N.eqb_neq in H. rewrite H.
    reflexivity.
Qed.

(** * The DCCP socket helpers *)

Lemma taken_app l1 l2 : taken (l1 ++ l2) = taken l1 ++ taken l2.
Proof. unfold taken. rewrite map_app, concat_app. reflexivity. Qed.

Section DccpFacts.

Local Open Scope Z_scope.

Variable K : kernel.
Variable size_bits : Z.
Hypothesis Hbits : 32 <= size_bits.

Lemma size_t_small x : 0 <= x < 2 ^ 31 -> to_size_t size_bits x = x.
Proof.
  intros Hx. unfold to_size_t. apply Z.mod_small.
  assert (2 ^ 32 <= 2 ^ size_bits) by (apply Z.pow_le_mono_r; lia).
  lia.
Qed.

Lemma gint_small x : 0 <= x < 2 ^ 31 -> to_gint x = x.
Proof. intros Hx. unfold to_gint. rewrite Z.mod_small; lia. Qed.

(** The bytes offered to [write] when [bytes_written] of them are out. *)
Lemma offered_bytes (buf : list byte) ps bw :
  0 < ps < 2 ^ 31 ->
  Z.of_nat (length buf) < 2 ^ 31 ->
  0 <= bw < Z.of_nat (length buf) ->
  let a := to_size_t size_bits ps in
  let b := to_size_t size_bits (Z.of_nat (length buf) - bw) in
  let count := if a <? b then a else b in
  let bytes := firstn (Z.to_nat count) (skipn (Z.to_nat bw) buf) in
  1 <= count <= ps /\
  count <= Z.of_nat (length buf) - bw /\
  Z.of_nat (length bytes) = count.
Proof.
  intros Hps Hlen Hbw. cbn zeta.
  rewrite !size_t_small by lia.
  destruct (Z.ltb_spec ps (Z.of_nat (length buf) - bw));
    (repeat split; try lia);
    rewrite length_firstn, length_skipn; lia.
Qed.

(** ** Every write takes something *)

Section Takes.

Hypothesis Htakes : forall w fd bytes,
  bytes <> [] ->
  1 <= fst (fst (sys_write K w fd bytes)) <= Z.of_nat (length bytes).

Lemma write_again_takes fuel w fd bytes :
  bytes <> [] ->
  exists wrote w',
    write_again K (S fuel) w fd bytes = Some (wrote, w', [(bytes, wrote)]) /\
    1 <= wrote <= Z.of_nat (length bytes).
Proof.
  intros Hne. specialize (Htakes w fd bytes Hne). cbn [write_again].
  destruct (sys_write K w fd bytes) as [[wrote errno] w1]. cbn in Htakes.
  replace (wrote =? -1) with false by (symmetry; apply Z.eqb_neq; lia).
  cbn. eauto.
Qed.

Lemma socket_write_loop_takes (buf : list byte) fd ps :
  0 < ps < 2 ^ 31 ->
  Z.of_nat (length buf) < 2 ^ 31 ->
  forall fuel w bw,
  0 <= bw <= Z.of_nat (length buf) ->
  (Z.to_nat (Z.of_nat (length buf) - bw) < fuel)%nat ->
  exists w' l,
    socket_write_loop K size_bits fuel w fd buf (Z.of_nat (length buf)) ps bw
    = Some (Z.of_nat (length buf), w', l) /\
    taken l = skipn (Z.to_nat bw) buf /\
    Forall (fun e => fst e <> [] /\ Z.of_nat (length (fst e)) <= ps /\
                     1 <= snd e) l.
Proof.
  intros Hps Hlen. induction fuel as [|fuel IH]; intros w bw Hbw Hfuel; [lia|].
  cbn [socket_write_loop].
  destruct (Z.ltb_spec bw (Z.of_nat (length buf))) as [Hlt | Hge].
  - destruct (offered_bytes buf ps bw Hps Hlen ltac:(lia)) as (Hc & Hc' & Hl).
    cbn zeta in Hc, Hc', Hl.
    set (bytes := firstn _ (skipn (Z.to_nat bw) buf)) in *.
    assert (Hne : bytes <> []) by (intros E; rewrite E in Hl; cbn in Hl; lia).
    destruct (write_again_takes fuel w fd bytes Hne) as (wrote & w1 & -> & Hw).
    rewrite size_t_small by lia.
    destruct (IH w1 (bw + wrote) ltac:(lia) ltac:(lia)) as (w' & l & -> & Ht & Hf).
    exists w', ((bytes, wrote) :: l). split; [reflexivity|]. split.
    + change (taken ((bytes, wrote) :: l))
        with (firstn (Z.to_nat wrote) bytes ++ taken l).
      rewrite Ht. subst bytes.
      rewrite firstn_firstn, Nat.min_l by lia.
      replace (Z.to_nat (bw + wrote)) with (Z.to_nat wrote + Z.to_nat bw)%nat by lia.
      rewrite <- skipn_skipn. apply firstn_skipn.
    + constructor; [|exact Hf]. cbn. repeat split; [exact Hne | lia | lia].
  - assert (bw = Z.of_nat (length buf)) by lia. subst bw.
    exists w, []. repeat split; [|constructor].
    rewrite Nat2Z.id, skipn_all. reflexivity.
Qed.

(** X13. On a socket whose every [write] takes at least one of the bytes
    it is offered, [gst_dccp_send_buffer] returns [GST_FLOW_OK] after the
    socket has taken all the bytes of the buffer, once each and in order,
    in writes of at most [packet_size] bytes: a short write is followed up
    from where it stopped. *)
Theorem send_buffer_sends_all (buffer : GstBuffer) w fd ps fuel :
  0 < ps < 2 ^ 31 ->
  GST_BUFFER_SIZE buffer = N.of_nat (length (GST_BUFFER_DATA buffer)) ->
  Z.of_nat (length (GST_BUFFER_DATA buffer)) < 2 ^ 31 ->
  (length (GST_BUFFER_DATA buffer) < fuel)%nat ->
  exists w' l,
    gst_dccp_send_buffer K size_bits fuel w buffer fd ps
    = Some (GST_FLOW_OK, w', l) /\
    taken l = GST_BUFFER_DATA buffer /\
    Forall (fun e => fst e <> [] /\ Z.of_nat (length (fst e)) <= ps /\
                     1 <= snd e) l.
Proof.
  intros Hps Hsize Hlen Hfuel. unfold gst_dccp_send_buffer, gst_dccp_socket_write.
  replace (ps <? 0) with false by (symmetry; apply Z.ltb_ge; lia).
  rewrite Hsize, nat_N_Z, gint_small, size_t_small by lia.
  destruct (socket_write_loop_takes (GST_BUFFER_DATA buffer) fd ps Hps Hlen
              fuel w 0 ltac:(lia) ltac:(lia)) as (w' & l & -> & Ht & Hf).
  rewrite gint_small, size_t_small, Z.eqb_refl by lia. cbn [negb].
  exists w', l. repeat split; assumption.
Qed.

End Takes.

(** ** A socket that may answer EAGAIN *)

Section Again.

Hypothesis Hagain : forall w fd bytes,
  bytes <> [] ->
  (fst (fst (sys_write K w fd bytes)) = -1 /\
   snd (fst (sys_write K w fd bytes)) = EAGAIN) \/
  1 <= fst (fst (sys_write K w fd bytes)) <= Z.of_nat (length bytes).

Lemma write_again_result bytes fd :
  bytes <> [] ->
  forall fuel w wrote w' l,
  write_again K fuel w fd bytes = Some (wrote, w', l) ->
  1 <= wrote <= Z.of_nat (length bytes) /\
  taken l = firstn (Z.to_nat wrote) bytes /\
  Forall (fun e => fst e = bytes) l.
Proof.
  intros Hne. induction fuel as [|fuel IH]; intros w wrote w' l; [discriminate|].
  cbn [write_again]. pose proof (Hagain w fd bytes Hne) as H.
  destruct (sys_write K w fd bytes) as [[r e] w1]. cbn [fst snd] in H.
  destruct H as [[-> ->] | Hr].
  - cbn. destruct (write_again K fuel w1 fd bytes) as [[[r' w2] l']|] eqn:E;
      [|discriminate].
    intros H. inversion H; subst. destruct (IH _ _ _ _ E) as (H1 & H2 & H3).
    split; [exact H1|]. split; [|constructor; [reflexivity | exact H3]].
    change (taken ((bytes, -1) :: l')) with (firstn (Z.to_nat (-1)) bytes ++ taken l').
    rewrite H2. reflexivity.
  - replace (r =? -1) with false by (symmetry; apply Z.eqb_neq; lia).
    cbn. intros H. inversion H; subst. split; [exact Hr|].
    split; [|constructor; [reflexivity | constructor]].
    unfold taken. cbn. apply app_nil_r.
Qed.

Lemma socket_write_loop_again (buf : list byte) fd ps :
  0 < ps < 2 ^ 31 ->
  Z.of_nat (length buf) < 2 ^ 31 ->
  forall fuel w bw r w' l,
  0 <= bw <= Z.of_nat (length buf) ->
  socket_write_loop K size_bits fuel w fd buf (Z.of_nat (length buf)) ps bw
  = Some (r, w', l) ->
  r = Z.of_nat (length buf) /\ taken l = skipn (Z.to_nat bw) buf.
Proof.
  intros Hps Hlen. induction fuel as [|fuel IH]; intros w bw r w' l Hbw;
    cbn [socket_write_loop];
    destruct (Z.ltb_spec bw (Z.of_nat (length buf))) as [Hlt | Hge];
    try discriminate;
    try (intros H; inversion H; subst;
         assert (r = Z.of_nat (length buf)) by lia; subst r;
         rewrite Nat2Z.id, skipn_all; auto).
  destruct (offered_bytes buf ps bw Hps Hlen ltac:(lia)) as (Hc & Hc' & Hl).
  cbn zeta in Hc, Hc', Hl.
  set (bytes := firstn _ (skipn (Z.to_nat bw) buf)) in *.
  assert (Hne : bytes <> []) by (intros E; rewrite E in Hl; cbn in Hl; lia).
  destruct (write_again K (S fuel) w fd bytes) as [[[wrote w1] l1]|] eqn:E;
    [|discriminate].
  destruct (write_again_result bytes fd Hne _ _ _ _ _ E) as (Hw & Ht1 & _).
  rewrite size_t_small by lia.
  destruct (socket_write_loop K size_bits fuel w1 fd buf _ ps (bw + wrote))
    as [[[r2 w2] l2]|] eqn:E2; [|discriminate].
  intros H. inversion H; subst.
  assert (Hbw' : 0 <= bw + wrote <= Z.of_nat (length buf)) by lia.
  destruct (IH _ _ _ _ _ Hbw' E2) as (-> & Ht2).
  split; [reflexivity|].
  rewrite taken_app, Ht1, Ht2. subst bytes.
  rewrite firstn_firstn, Nat.min_l by lia.
  replace (Z.to_nat (bw + wrote)) with (Z.to_nat wrote + Z.to_nat bw)%nat by lia.
  rewrite <- skipn_skipn. apply firstn_skipn.
Qed.

(** X14. A [write] answered with [EAGAIN] is tried again and does not
    count: on a socket whose writes either do that or take some of the
    bytes offered, whenever [gst_dccp_send_buffer] returns it returns
    [GST_FLOW_OK] and the socket has taken the bytes of the buffer, once
    each and in order. *)
Theorem send_buffer_retries (buffer : GstBuffer) w fd ps fuel fr w' l :
  0 < ps < 2 ^ 31 ->
  GST_BUFFER_SIZE buffer = N.of_nat (length (GST_BUFFER_DATA buffer)) ->
  Z.of_nat (length (GST_BUFFER_DATA buffer)) < 2 ^ 31 ->
  gst_dccp_send_buffer K size_bits fuel w buffer fd ps = Some (fr, w', l) ->
  fr = GST_FLOW_OK /\ taken l = GST_BUFFER_DATA buffer.
Proof.
  intros Hps Hsize Hlen. unfold gst_dccp_send_buffer, gst_dccp_socket_write.
  replace (ps <? 0) with false by (symmetry; apply Z.ltb_ge; lia).
  rewrite Hsize, nat_N_Z, gint_small, size_t_small by lia.
  destruct (socket_write_loop K size_bits fuel w fd (GST_BUFFER_DATA buffer) _ ps 0)
    as [[[r w1] l1]|] eqn:E; [|discriminate].
  assert (H0 : 0 <= 0 <= Z.of_nat (length (GST_BUFFER_DATA buffer))) by lia.
  destruct (socket_write_loop_again _ fd ps Hps Hlen _ _ _ _ _ _ H0 E)
    as (-> & Ht).
  rewrite gint_small, size_t_small, Z.eqb_refl by lia. cbn [negb].
  intros H. inversion H; subst. split; [reflexivity | exact Ht].
Qed.

End Again.

(** ** Failed writes *)

Lemma size_t_minus_one : to_size_t size_bits (-1) = 2 ^ size_bits - 1.
Proof.
  unfold to_size_t.
  assert (0 < 2 ^ size_bits) by (apply Z.pow_pos_nonneg; lia).
  replace (-1) with (2 ^ size_bits - 1 + -1 * 2 ^ size_bits) by lia.
  rewrite Z_mod_plus_full. apply Z.mod_small. lia.
Qed.

Lemma big_size_t : 2 ^ 32 <= 2 ^ size_bits.
Proof. apply Z.pow_le_mono_r; lia. Qed.

Lemma gint_of_all_ones : to_gint (2 ^ size_bits - 1) = -1.
Proof.
  unfold to_gint.
  replace (2 ^ size_bits) with (2 ^ (size_bits - 32) * 2 ^ 32)
    by (rewrite <- Z.pow_add_r by lia; f_equal; lia).
  replace (2 ^ (size_bits - 32) * 2 ^ 32 - 1 + 2 ^ 31)
    with (2 ^ 31 - 1 + 2 ^ (size_bits - 32) * 2 ^ 32) by lia.
  rewrite Z_mod_plus_full. rewrite Z.mod_small; lia.
Qed.

(** X15. When the first [write] of a buffer of at least one and fewer than
    2^31 bytes fails, with an [errno] other than [EAGAIN], and the packet
    size is not negative, [gst_dccp_send_buffer] gives up after that one
    write and returns [GST_FLOW_ERROR]. *)
Theorem send_buffer_first_write_fails (buffer : GstBuffer) w fd ps fuel e w1 :
  let data := GST_BUFFER_DATA buffer in
  let bytes := firstn (Z.to_nat (Z.min ps (Z.of_nat (length data)))) data in
  0 <= ps < 2 ^ 31 ->
  GST_BUFFER_SIZE buffer = N.of_nat (length data) ->
  0 < Z.of_nat (length data) < 2 ^ 31 ->
  sys_write K w fd bytes = (-1, e, w1) ->
  e <> EAGAIN ->
  gst_dccp_send_buffer K size_bits (S fuel) w buffer fd ps
  = Some (GST_FLOW_ERROR, w1, [(bytes, -1)]).
Proof.
  intros data bytes Hps Hsize Hlen Hw He.
  unfold gst_dccp_send_buffer, gst_dccp_socket_write.
  replace (ps <? 0) with false by (symmetry; apply Z.ltb_ge; lia).
  fold data. rewrite Hsize, nat_N_Z, gint_small, size_t_small by lia.
  cbn [socket_write_loop].
  replace (0 <? Z.of_nat (length data)) with true by (symmetry; apply Z.ltb_lt; lia).
  rewrite Z.sub_0_r, !size_t_small by lia.
  replace (if ps <? Z.of_nat (length data) then ps else Z.of_nat (length data))
    with (Z.min ps (Z.of_nat (length data)))
    by (destruct (Z.ltb_spec ps (Z.of_nat (length data))); lia).
  cbn [Z.to_nat skipn]. fold bytes. cbn [write_again]. rewrite Hw.
  replace (e =? EAGAIN) with false by (symmetry; apply Z.eqb_neq; exact He).
  rewrite andb_false_r. cbv beta iota. change (0 + -1) with (-1).
  rewrite size_t_minus_one.
  pose proof big_size_t.
  assert (Hexit : forall f, socket_write_loop K size_bits f w1 fd data
                             (Z.of_nat (length data)) ps (2 ^ size_bits - 1)
                           = Some (2 ^ size_bits - 1, w1, [])).
  { intros f. destruct f; cbn [socket_write_loop];
      replace (2 ^ size_bits - 1 <? Z.of_nat (length data)) with false
        by (symmetry; apply Z.ltb_ge; lia); reflexivity. }
  rewrite Hexit, gint_of_all_ones, size_t_minus_one.
  replace (2 ^ size_bits - 1 =? Z.of_nat (length data)) with false
    by (symmetry; apply Z.eqb_neq; lia).
  reflexivity.
Qed.

(** X16. A [write] that fails after the socket has taken [k] bytes of the
    buffer is not reported: [-1] is added to the count of bytes written,
    the next write starts one byte back, and when that write succeeds
    [gst_dccp_send_buffer] returns [GST_FLOW_OK] although the socket has
    taken the byte before the failure twice. *)
Theorem send_buffer_swallows_an_error (buffer : GstBuffer) w fd ps fuel
  k e1 w1 e2 w2 e3 w3 :
  let data := GST_BUFFER_DATA buffer in
  let n := Z.of_nat (length data) in
  GST_BUFFER_SIZE buffer = N.of_nat (length data) ->
  n <= ps < 2 ^ 31 ->
  1 <= k < n ->
  sys_write K w fd data = (k, e1, w1) ->
  sys_write K w1 fd (skipn (Z.to_nat k) data) = (-1, e2, w2) ->
  e2 <> EAGAIN ->
  sys_write K w2 fd (skipn (Z.to_nat (k - 1)) data) = (n - k + 1, e3, w3) ->
  let l := [(data, k); (skipn (Z.to_nat k) data, -1);
            (skipn (Z.to_nat (k - 1)) data, n - k + 1)] in
  gst_dccp_send_buffer K size_bits (S (S (S fuel))) w buffer fd ps
  = Some (GST_FLOW_OK, w3, l) /\
  taken l = firstn (Z.to_nat k) data ++ skipn (Z.to_nat (k - 1)) data.
Proof.
  intros data n Hsize Hps Hk H1 H2 He H3 l.
  assert (Hoffer : forall bw, 0 <= bw < n ->
    firstn (Z.to_nat (if to_size_t size_bits ps <? to_size_t size_bits (n - bw)
                      then to_size_t size_bits ps
                      else to_size_t size_bits (n - bw)))
      (skipn (Z.to_nat bw) data)
    = skipn (Z.to_nat bw) data).
  { intros bw Hbw. rewrite !size_t_small by lia.
    replace (ps <? n - bw) with false by (symmetry; apply Z.ltb_ge; lia).
    apply firstn_all2. rewrite length_skipn. subst n. lia. }
  assert (Hlt : forall bw, 0 <= bw < n -> (bw <? n) = true)
    by (intros; apply Z.ltb_lt; lia).
  split.
  - unfold gst_dccp_send_buffer, gst_dccp_socket_write.
    replace (ps <? 0) with false by (symmetry; apply Z.ltb_ge; lia).
    fold data. rewrite Hsize, nat_N_Z. fold n.
    rewrite gint_small, size_t_small by lia.
    (* first write: [k] bytes are taken *)
    cbn [socket_write_loop]. rewrite Hlt, Hoffer by lia.
    cbn [Z.to_nat skipn write_again]. rewrite H1.
    replace (k =? -1) with false by (symmetry; apply Z.eqb_neq; lia).
    cbn [andb Z.add]. rewrite (size_t_small k) by lia.
    (* second write: it fails *)
    rewrite Hlt, Hoffer by lia. cbn [write_again]. rewrite H2.
    replace (e2 =? EAGAIN) with false by (symmetry; apply Z.eqb_neq; exact He).
    rewrite andb_false_r. cbv beta iota. rewrite (size_t_small (k + -1)) by lia.
    replace (k + -1) with (k - 1) by lia.
    (* third write: from one byte back *)
    rewrite Hlt, Hoffer by lia. cbn [write_again]. rewrite H3.
    replace (n - k + 1 =? -1) with false by (symmetry; apply Z.eqb_neq; lia).
    cbn [andb]. rewrite (size_t_small (k - 1 + (n - k + 1))) by lia.
    replace (k - 1 + (n - k + 1)) with n by lia.
    assert (Hexit : socket_write_loop K size_bits fuel w3 fd data n ps n
                    = Some (n, w3, [])).
    { destruct fuel; cbn [socket_write_loop]; rewrite Z.ltb_irrefl; reflexivity. }
    rewrite Hexit. cbn [app]. rewrite gint_small, size_t_small, Z.eqb_refl by lia.
    reflexivity.
  - unfold taken, l. cbn [map concat fst snd Z.to_nat firstn app].
    rewrite app_nil_r. f_equal.
    apply firstn_all2. rewrite length_skipn. subst n. lia.
Qed.

(** ** The packet size *)

(** X17. When the current maximum packet size cannot be read,
    [gst_dccp_get_max_packet_size] posts a settings error and returns -1,
    and [gst_dccp_send_buffer] given that packet size returns
    [GST_FLOW_ERROR] without a single [write]. *)
Theorem no_packet_size_no_write w sock :
  fst (fst (sys_cur_mps K w sock)) < 0 ->
  let r := gst_dccp_get_max_packet_size K w sock in
  fst (fst r) = -1 /\
  snd r = [RESOURCE_SETTINGS] /\
  forall fuel buffer fd,
    gst_dccp_send_buffer K size_bits fuel (snd (fst r)) buffer fd (fst (fst r))
    = Some (GST_FLOW_ERROR, snd (fst r), []).
Proof.
  intros H. unfold gst_dccp_get_max_packet_size.
  destruct (sys_cur_mps K w sock) as [[ret size] w1]. cbn [fst] in H.
  replace (ret <? 0) with true by (symmetry; apply Z.ltb_lt; exact H).
  cbn. auto.
Qed.

(** ** Reading *)


(** ** The congestion control *)

Lemma ccid_among_spec ccid c0 c1 c2 c3 :
  ccid_among ccid (c0, c1, c2, c3) = true <-> In ccid [c0; c1; c2; c3].
Proof.
  unfold ccid_among. cbn [fold_left In].
  destruct (Byte.eqb ccid c0) eqn:E0, (Byte.eqb ccid c1) eqn:E1,
           (Byte.eqb ccid c2) eqn:E2, (Byte.eqb ccid c3) eqn:E3;
    rewrite ?Byte.byte_dec_bl in *;
    repeat match goal with
           | H : Byte.eqb _ _ = true |- _ => apply Byte.byte_dec_bl in H
           | H : Byte.eqb _ _ = false |- _ =>
             apply (proj2 (not_true_iff_false _)) in H
           end;
    split; intros H; auto; try discriminate;
    repeat match goal with
           | H : _ \/ _ |- _ => destruct H
           | H : False |- _ => destruct H
           | H : ?c = ccid, N : Byte.eqb ccid ?c <> true |- _ =>
             exfalso; apply N; subst; apply Byte.byte_dec_lb; reflexivity
           end.
Qed.

(** X19. [gst_dccp_set_ccid] answers TRUE exactly when the available CCIDs
    could be read, the CCID asked for is among the first four of them and
    the kernel accepted it.  When it is not among them the answer is FALSE
    and the socket option is never set: the world stays as the query left
    it. *)
Theorem set_ccid_only_if_available w sock_fd ccid :
  let '(ret, ccids, w1) := sys_available_ccids K w sock_fd in
  let '(c0, c1, c2, c3) := ccids in
  (fst (gst_dccp_set_ccid K w sock_fd ccid) = true <->
   0 <= ret /\ In ccid [c0; c1; c2; c3] /\
   0 <= fst (sys_set_ccid K w1 sock_fd ccid)) /\
  (~ In ccid [c0; c1; c2; c3] ->
   gst_dccp_set_ccid K w sock_fd ccid = (false, w1)).
Proof.
  unfold gst_dccp_set_ccid.
  destruct (sys_available_ccids K w sock_fd) as [[ret [[[c0 c1] c2] c3]] w1].
  destruct (Z.ltb_spec ret 0).
  { split; [split; [discriminate | lia] | reflexivity]. }
  destruct (ccid_among ccid (c0, c1, c2, c3)) eqn:E; cbn [negb].
  - destruct (sys_set_ccid K w1 sock_fd ccid) as [ret2 w2]. cbn [fst].
    apply ccid_among_spec in E.
    destruct (Z.ltb_spec ret2 0); cbn [fst]; split;
      try (intros N; contradiction);
      split; try discriminate; try lia; auto.
  - assert (N : ~ In ccid [c0; c1; c2; c3])
      by (intros HIn; apply ccid_among_spec in HIn; congruence).
    split; [|reflexivity].
    cbn [fst]. split; [discriminate|]. intros (_ & HIn & _). contradiction.
Qed.

End DccpFacts.

(** * The extra theorems at work *)

Lemma restart_twice_rle :
  gst_bz2dec_decompress_init (machine_lib rle)
    (fst (gst_bz2dec_decompress_init (machine_lib rle)
            (new_element (machine_lib rle) 16)))
  = gst_bz2dec_decompress_init (machine_lib rle) (new_element (machine_lib rle) 16).
Proof.
  apply (decompress_init_idempotent (machine_lib rle)
           (new_element (machine_lib rle) 16)); reflexivity.
Defined.

Lemma offset_after_forty :
  offset (element (gst_bz2dec_chain (machine_lib rle) sink 8
                     (new_element (machine_lib rle) 16) 0%nat
                     (input_buffer forty_compressed)))
  = wrap64 (offset (new_element (machine_lib rle) 16)
            + total_size
                (handed (log (gst_bz2dec_chain (machine_lib rle) sink 8
                                (new_element (machine_lib rle) 16) 0%nat
                                (input_buffer forty_compressed))))).
Proof.
  apply (chain_advances_offset (machine_lib rle) sink 8
           (new_element (machine_lib rle) 16) 0%nat
           (input_buffer forty_compressed)); reflexivity.
Defined.


Lemma refused_buffer_on_forty :
  let b := new_element (machine_lib rle) 16 in
  let o := gst_bz2dec_chain (machine_lib rle) dry_after 8 b 1%nat
             (input_buffer forty_compressed) in
  element o = restarted (machine_lib rle) (buffer_size b) /\
  offset (element o) = 0 /\
  posted (log o)
  = (if (fst (BZ2_bzDecompressInit (machine_lib rle) zero_stream) =? BZ_OK)%Z
     then [] else [Failed_to_start_decompression]).
Proof.
  apply (chain_refused_buffer (machine_lib rle) dry_after 8
           (new_element (machine_lib rle) 16) 1%nat
           (input_buffer forty_compressed) GST_FLOW_NOT_LINKED).
  - reflexivity.
  - reflexivity.
  - reflexivity.
  - vm_compute. repeat constructor.
  - vm_compute. repeat constructor.
Defined.

Lemma failed_step_on_corrupted :
  let o := gst_bz2dec_chain (machine_lib rle) sink 8
             (new_element (machine_lib rle) 16) 0%nat (input_buffer corrupted) in
  S (length (handed (log o))) = length (codes (log o)) /\
  Forall (fun a => a = GST_FLOW_OK) (answers (log o)).
Proof.
  apply (chain_drops_failed_step (machine_lib rle) sink 8
           (new_element (machine_lib rle) 16) 0%nat (input_buffer corrupted)
           BZ_DATA_ERROR).
  - vm_compute. right. left. reflexivity.
  - reflexivity.
Defined.

Lemma contiguous_offsets_of_forty :
  let l := handed (log (gst_bz2dec_chain (machine_lib rle) sink 8
                          (new_element (machine_lib rle) 16) 0%nat
                          (input_buffer forty_compressed))) in
  Forall (fun c => 0 < GST_BUFFER_SIZE c) l /\
  contiguous (offsets_and_sizes l) /\
  (l <> [] -> GST_BUFFER_OFFSET (hd (mkBuffer [] 0 0) l) = 0).
Proof.
  apply (offsets_contiguous_below_4GiB (machine_lib rle) sink 8
           (new_element (machine_lib rle) 16) 0%nat
           (input_buffer forty_compressed) 0).
  - exact (machine_counts_output rle).
  - reflexivity.
  - reflexivity.
  - vm_compute. discriminate.
Defined.

Lemma empty_buffer_on_new_element :
  let b := new_element (machine_lib rle) 16 in
  let o := gst_bz2dec_chain (machine_lib rle) sink 1 b 0%nat (input_buffer []) in
  flow o = Some GST_FLOW_OK /\
  handed (log o) = [] /\
  codes (log o) = [BZ_OK] /\
  offset (element o) = offset b /\
  ready (element o) = true /\
  buffer_size (element o) = buffer_size b /\
  state (stream (element o)) = Some (@Running rle RMagic).
Proof.
  apply (empty_buffer_changes_nothing rle sink RMagic
           (fun x => if Byte.eqb x "Z"%byte then RCount else RBad)
           (new_element (machine_lib rle) 16) 0%nat 1).
  - exact sink_accepts.
  - reflexivity.
  - reflexivity.
  - reflexivity.
  - split; reflexivity.
  - reflexivity.
  - lia.
Defined.

Lemma buffer_size_change_on_forty :
  let o1 := gst_bz2dec_chain (machine_lib rle) sink 41
              (new_element (machine_lib rle) 16) 0%nat
              (input_buffer ["Z"; x14; "a"]%byte) in
  let o2 := gst_bz2dec_chain (machine_lib rle) sink 41
              (gst_bz2dec_set_property (machine_lib rle) (element o1) 8)
              (downstream o1) (input_buffer [x14; "b"; x00]%byte) in
  flow o1 = Some GST_FLOW_OK /\
  flow o2 = Some GST_FLOW_OK /\
  payload (log o1) ++ payload (log o2) = forty /\
  Forall (fun c => GST_BUFFER_SIZE c <= 16) (handed (log o1)) /\
  Forall (fun c => GST_BUFFER_SIZE c <= 8) (handed (log o2)).
Proof.
  apply (buffer_size_change_between_buffers rle sink
           ["Z"; x14; "a"]%byte [x14; "b"; x00]%byte forty 16 8 0%nat 41).
  - exact sink_accepts.
  - exact forty_decompresses.
  - discriminate.
  - split; reflexivity.
  - split; reflexivity.
  - cbn. lia.
Defined.

Local Open Scope Z_scope.

Lemma slow_kernel_takes : forall w fd bytes,
  bytes <> [] ->
  1 <= fst (fst (sys_write slow_kernel w fd bytes)) <= Z.of_nat (length bytes).
Proof.
  intros w fd bytes Hne. cbn.
  destruct bytes; [congruence|]. cbn [length]. lia.
Qed.

Lemma busy_kernel_again : forall w fd bytes,
  bytes <> [] ->
  (fst (fst (sys_write busy_kernel w fd bytes)) = -1 /\
   snd (fst (sys_write busy_kernel w fd bytes)) = EAGAIN) \/
  1 <= fst (fst (sys_write busy_kernel w fd bytes)) <= Z.of_nat (length bytes).
Proof.
  intros w fd bytes Hne. cbn.
  destruct (Nat.even w); [left; split; reflexivity | right].
  destruct bytes; [congruence|]. cbn [length fst]. lia.
Qed.

Lemma five_sent_slowly :
  exists w' l,
    gst_dccp_send_buffer slow_kernel 64 6 0%nat five 3 2 = Some (GST_FLOW_OK, w', l) /\
    taken l = GST_BUFFER_DATA five /\
    Forall (fun e => fst e <> [] /\ Z.of_nat (length (fst e)) <= 2 /\ 1 <= snd e) l.
Proof.
  apply (send_buffer_sends_all slow_kernel 64 ltac:(lia) slow_kernel_takes
           five 0%nat 3 2 6%nat).
  - lia.
  - reflexivity.
  - cbn. lia.
  - cbn. lia.
Defined.

Lemma five_sent_to_a_busy_socket :
  exists w' l,
    gst_dccp_send_buffer busy_kernel 64 8 0%nat five 3 4 = Some (GST_FLOW_OK, w', l) /\
    taken l = GST_BUFFER_DATA five.
Proof.
  eexists. eexists.
  assert (E : gst_dccp_send_buffer busy_kernel 64 8 0%nat five 3 4
              = Some (GST_FLOW_OK, 4%nat,
                      [(["h"; "e"; "l"; "l"]%byte, -1);
                       (["h"; "e"; "l"; "l"]%byte, 3);
                       (["l"; "o"]%byte, -1);
                       (["l"; "o"]%byte, 2)])) by reflexivity.
  split; [exact E|].
  apply (send_buffer_retries busy_kernel 64 ltac:(lia) busy_kernel_again
           five 0%nat 3 4 8%nat GST_FLOW_OK 4%nat _ ltac:(lia) eq_refl
           ltac:(cbn; lia) E).
Defined.

Lemma five_first_write_fails :
  gst_dccp_send_buffer scripted_kernel 64 1 [(-1, 5)] five 3 4
  = Some (GST_FLOW_ERROR, [], [(["h"; "e"; "l"; "l"]%byte, -1)]).
Proof.
  apply (send_buffer_first_write_fails scripted_kernel 64 ltac:(lia)
           five [(-1, 5)] 3 4 0%nat 5 []).
  - lia.
  - reflexivity.
  - cbn. lia.
  - reflexivity.
  - discriminate.
Defined.

Lemma five_with_a_swallowed_error :
  let l := [(["h"; "e"; "l"; "l"; "o"]%byte, 2);
            (["l"; "l"; "o"]%byte, -1);
            (["e"; "l"; "l"; "o"]%byte, 4)] in
  gst_dccp_send_buffer scripted_kernel 64 3 [(2, 0); (-1, 5)] five 3 1400
  = Some (GST_FLOW_OK, [], l) /\
  taken l = ["h"; "e"; "e"; "l"; "l"; "o"]%byte.
Proof.
  apply (send_buffer_swallows_an_error scripted_kernel 64 ltac:(lia)
           five [(2, 0); (-1, 5)] 3 1400 0%nat 2 0 [(-1, 5)] 5 [] 0 []).
  - reflexivity.
  - cbn. lia.
  - cbn. lia.
  - reflexivity.
  - reflexivity.
  - discriminate.
  - reflexivity.
Defined.

Lemma no_packet_size_on_scripted_kernel :
  let r := gst_dccp_get_max_packet_size scripted_kernel [] 3 in
  fst (fst r) = -1 /\
  snd r = [RESOURCE_SETTINGS] /\
  forall fuel buffer fd,
    gst_dccp_send_buffer scripted_kernel 64 fuel (snd (fst r)) buffer fd (fst (fst r))
    = Some (GST_FLOW_ERROR, snd (fst r), []).
Proof.
  apply (no_packet_size_no_write scripted_kernel 64 [] 3). cbn. lia.
Defined.
